(** * Rule aggregation and deduplication (pkg/rules/rules.go)

    A shallow embedding of the rules client of pkg/rules: the stream sink
    [rulesServer], the selector filter [filterRules]/[matches], the group
    merger [dedupGroups], the replica deduper [dedupRules] and the facade
    [Rules], followed by the properties the specification states about
    them. *)

From stdpp Require Import gmap strings list sorting.
From Stdlib Require Import ZArith.

Local Open Scope string_scope.
Local Open Scope list_scope.

(** ** Labels (prometheus model/labels) *)

Record Label := { Label_Name : string; Label_Value : string }.

Definition Labels := list Label.

#[global] Instance Label_eq_dec : EqDecision Label.
Proof. solve_decision. Defined.

(** [Labels.Get]: the value of the first label called [name], the empty
    string when there is none. *)
Fixpoint Labels_Get (ls : Labels) (name : string) : string :=
  match ls with
  | [] => ""
  | l :: rest =>
      if bool_decide (Label_Name l = name) then Label_Value l
      else Labels_Get rest name
  end.

(** ** Matchers (prometheus model/labels) *)

Inductive MatchType := MatchEqual | MatchNotEqual | MatchRegexp | MatchNotRegexp.

Record Matcher := {
  Matcher_Type : MatchType;
  Matcher_Name : string;
  Matcher_Value : string
}.

(** ** Template nodes (text/template/parse) *)

Inductive NodeType :=
  | NodeText | NodeAction | NodeBool | NodeChain | NodeCommand | NodeDot
  | NodeField | NodeIdentifier | NodeIf | NodeList | NodeNil | NodeNumber
  | NodePipe | NodeRange | NodeString | NodeTemplate | NodeVariable
  | NodeWith | NodeComment | NodeBreak | NodeContinue.

#[global] Instance NodeType_eq_dec : EqDecision NodeType.
Proof. solve_decision. Defined.

(** ** Rules and rule groups (rulespb) *)

(** Modelled from the spec: the rulespb message declarations are not among
    the sources. A rule is one of two variants, recording or alerting, and
    both carry labels; of the remaining content the name and the query
    expression are kept. *)
Record RecordingRule := {
  Recording_Name : string;
  Recording_Query : string;
  Recording_Labels : Labels
}.

Record Alert := {
  Alert_Name : string;
  Alert_Query : string;
  Alert_Labels : Labels
}.

(** The [Result] oneof of a rule; [Rule_NoResult] is the unset oneof, for
    which both [GetRecording] and [GetAlert] answer nil. *)
Inductive Rule :=
  | Rule_Recording (r : RecordingRule)
  | Rule_Alert (a : Alert)
  | Rule_NoResult.

#[global] Instance RecordingRule_eq_dec : EqDecision RecordingRule.
Proof. solve_decision. Defined.
#[global] Instance Alert_eq_dec : EqDecision Alert.
Proof. solve_decision. Defined.
#[global] Instance Rule_eq_dec : EqDecision Rule.
Proof. solve_decision. Defined.

Definition GetRecording (r : Rule) : option RecordingRule :=
  match r with Rule_Recording x => Some x | _ => None end.

Definition GetAlert (r : Rule) : option Alert :=
  match r with Rule_Alert x => Some x | _ => None end.

Definition Rule_GetLabels (r : Rule) : Labels :=
  match r with
  | Rule_Recording x => Recording_Labels x
  | Rule_Alert x => Alert_Labels x
  | Rule_NoResult => []
  end.

Definition Rule_SetLabels (r : Rule) (ls : Labels) : Rule :=
  match r with
  | Rule_Recording x =>
      Rule_Recording {| Recording_Name := Recording_Name x;
                        Recording_Query := Recording_Query x;
                        Recording_Labels := ls |}
  | Rule_Alert x =>
      Rule_Alert {| Alert_Name := Alert_Name x;
                    Alert_Query := Alert_Query x;
                    Alert_Labels := ls |}
  | Rule_NoResult => Rule_NoResult
  end.

Record RuleGroup := {
  Group_Name : string;
  Group_File : string;
  Group_Rules : list Rule
}.

#[global] Instance RuleGroup_eq_dec : EqDecision RuleGroup.
Proof. solve_decision. Defined.

Definition Group_withRules (g : RuleGroup) (rs : list Rule) : RuleGroup :=
  {| Group_Name := Group_Name g; Group_File := Group_File g; Group_Rules := rs |}.

(** The number of rules a list of groups holds. *)
Definition ruleCount (groups : list RuleGroup) : nat :=
  sum_list_with (fun g => length (Group_Rules g)) groups.

(** ** Errors (github.com/pkg/errors) *)

Inductive error :=
  | errors_New (msg : string)
  | errors_Wrap (cause : error) (msg : string).

#[global] Instance error_eq_dec : EqDecision error.
Proof. solve_decision. Defined.

(** ** Stream messages and the stream sink *)

(** The [Result] oneof of a [RulesResponse]: a group (the pointer may be
    nil), a warning, or nothing. *)
Inductive RulesResponse :=
  | Response_Group (g : option RuleGroup)
  | Response_Warning (w : string)
  | Response_NoResult.

Definition GetWarning (res : RulesResponse) : string :=
  match res with Response_Warning w => w | _ => "" end.

Definition GetGroup (res : RulesResponse) : option RuleGroup :=
  match res with Response_Group g => g | _ => None end.

(** The request context, as far as the sink can observe it: whether its
    [Done] channel is closed. *)
Record Context := { ctx_done : bool }.

(** [rulesServer]. The mutex serialises the appends of concurrent
    producers, so one [Send] is one atomic transition of this record. *)
Record rulesServer := {
  srv_ctx : Context;
  srv_warnings : list error;
  srv_groups : list RuleGroup
}.

Definition Send (srv : rulesServer) (res : RulesResponse) : rulesServer * option error :=
  if negb (String.eqb (GetWarning res) "") then
    ({| srv_ctx := srv_ctx srv;
        srv_warnings := srv_warnings srv ++ [errors_New (GetWarning res)];
        srv_groups := srv_groups srv |}, None)
  else
    match GetGroup res with
    | None => (srv, Some (errors_New "no group"))
    | Some g =>
        ({| srv_ctx := srv_ctx srv;
            srv_warnings := srv_warnings srv;
            srv_groups := srv_groups srv ++ [g] |}, None)
    end.

Definition rulesServer_Context (srv : rulesServer) : Context := srv_ctx srv.

(** The sink [Rules] starts from: [&rulesServer{ctx: ctx}]. *)
Definition newRulesServer (ctx : Context) : rulesServer :=
  {| srv_ctx := ctx; srv_warnings := []; srv_groups := [] |}.

(** The same sink under another context. *)
Definition withContext (srv : rulesServer) (ctx : Context) : rulesServer :=
  {| srv_ctx := ctx; srv_warnings := srv_warnings srv; srv_groups := srv_groups srv |}.

Record RulesRequest := { MatcherString : list string }.

(** The stream interface [rulespb.Rules_RulesServer] handed to the fan-out
    collaborator, over a sink state [S]. *)
Record Rules_RulesServer (S : Type) := {
  stream_Send : S -> RulesResponse -> S * option error;
  stream_Context : S -> Context
}.
Arguments stream_Send {S}.
Arguments stream_Context {S}.

(** [rulespb.RulesServer]: the collaborator sees the sink only through the
    stream interface, whatever the sink's state is. *)
Definition RulesServer : Type :=
  forall S : Type, Rules_RulesServer S -> RulesRequest -> S -> S * option error.

Definition rulesServer_stream : Rules_RulesServer rulesServer :=
  {| stream_Send := Send; stream_Context := rulesServer_Context |}.

Record GRPCClient := {
  proxy : RulesServer;
  replicaLabels : gset string
}.

Definition NewGRPCClientWithDedup (rs : RulesServer) (labels : list string) : GRPCClient :=
  {| proxy := rs; replicaLabels := foldl (fun acc label => {[label]} ∪ acc) ∅ labels |}.

Definition NewGRPCClient (rs : RulesServer) : GRPCClient :=
  NewGRPCClientWithDedup rs [].

(** The three results of [Rules]; a nil [*RuleGroups] is [None], a nil
    warning slice is the empty list. *)
Record RulesResult := {
  res_groups : option (list RuleGroup);
  res_warnings : list error;
  res_err : option error
}.

(** ** Sorting labels by name (sort.Slice in dedupRules)

    [sort.Slice] is given [less i j := Name i < Name j]; the model is the
    insertion sort on that order, which moves an element left only past
    strictly greater names. The label names of a rule are distinct, so
    the order of equal names, which [sort.Slice] does not promise, is
    not at stake; [sortByName_Permutation] and [sortByName_sorted] below
    say that the model sorts. *)
Fixpoint insertByName (x : Label) (l : Labels) : Labels :=
  match l with
  | [] => [x]
  | y :: l' =>
      if String.ltb (Label_Name y) (Label_Name x) then y :: insertByName x l'
      else x :: y :: l'
  end.

Fixpoint sortByName (l : Labels) : Labels :=
  match l with
  | [] => []
  | x :: l' => insertByName x (sortByName l')
  end.

(** The order [sortByName] establishes: no label is followed by one of a
    strictly smaller name. *)
Definition notAfter (x y : Label) : Prop :=
  String.ltb (Label_Name y) (Label_Name x) = false.

Definition sortedByName (l : Labels) : Prop := Sorted notAfter l.

Definition removeReplicaLabels (r : Rule) (replicaLabels : gset string) : Rule :=
  Rule_SetLabels r (filter (fun l => Label_Name l ∉ replicaLabels) (Rule_GetLabels r)).

(** What the first loop of [dedupRules] does to one rule. *)
Definition normalizeRule (replicaLabels : gset string) (r : Rule) : Rule :=
  let r' := removeReplicaLabels r replicaLabels in
  Rule_SetLabels r' (sortByName (Rule_GetLabels r')).

(** ** In-place compaction

    [filterRules] filters both slices in place: it walks the slice by
    index, writes every kept element at the write index and finally cuts
    the slice at the number of kept elements. [keep] answers the element
    to store, or [None] to skip it. *)
Section Compaction.
Context {A : Type} (keep : A -> option A).

Definition compactStep (st : list A * nat) (i : nat) : list A * nat :=
  match st.1 !! i with
  | Some x =>
      match keep x with
      | Some y => (<[st.2 := y]> st.1, S st.2)
      | None => st
      end
  | None => st
  end.

Definition compact (l : list A) : list A :=
  let st := foldl compactStep (l, 0) (seq 0 (length l)) in
  take st.2 st.1.
End Compaction.

(** ** The engine

    The libraries and generated code the file calls are parameters:
    the regular-expression engine behind a matcher, the state of the one
    [text/template] object that [matches] parses every label value with,
    the PromQL selector parser, the text form [Rule.String] and the
    per-variant [Compare] of rulespb. *)
Section Engine.

(** [re.MatchString] of the matcher compiled from a pattern. *)
Variable re_MatchString : string -> string -> bool.

(** [template.New("label")] and [Parse] on it: the template after the
    call and, when [err == nil], the types of [t.Root.Nodes]. *)
Variable Template : Type.
Variable template_New : Template.
Variable template_Parse : Template -> string -> Template * option (list NodeType).

Variable ParseMetricSelector : string -> list Matcher + error.

Variable Rule_String : Rule -> string.
Variable RecordingRule_Compare : RecordingRule -> RecordingRule -> Z.
Variable Alert_Compare : Alert -> Alert -> Z.

Definition Matcher_Matches (m : Matcher) (s : string) : bool :=
  match Matcher_Type m with
  | MatchEqual => String.eqb s (Matcher_Value m)
  | MatchNotEqual => negb (String.eqb s (Matcher_Value m))
  | MatchRegexp => re_MatchString (Matcher_Value m) s
  | MatchNotRegexp => negb (re_MatchString (Matcher_Value m) s)
  end.

(** Every matcher of every set holds on the labels [nt], a matcher
    being given the value [Labels_Get] finds for its name. *)
Definition allMatchersHold (matcherSets : list (list Matcher)) (nt : Labels) : Prop :=
  forall matchers m, matchers ∈ matcherSets -> m ∈ matchers ->
    Matcher_Matches m (Labels_Get nt (Matcher_Name m)) = true.

(** The test of [matches] on one parse: no error, one node, of type
    [NodeText]. *)
Definition singleTextNode (parsed : option (list NodeType)) : bool :=
  match parsed with
  | Some [n] => bool_decide (n = NodeText)
  | _ => false
  end.

(** The first loop of [matches], threading the template object. *)
Fixpoint nonTemplatedFrom (t : Template) (l : Labels) : Labels :=
  match l with
  | [] => []
  | label :: rest =>
      let '(t', parsed) := template_Parse t (Label_Value label) in
      if singleTextNode parsed then label :: nonTemplatedFrom t' rest
      else nonTemplatedFrom t' rest
  end.

Definition nonTemplatedLabels (l : Labels) : Labels :=
  nonTemplatedFrom template_New l.

(** The template object once the values of the labels [pre] have been
    parsed with it, and what the test of [matches] answers for a label
    parsed next. *)
Definition templateAfter (t : Template) (pre : Labels) : Template :=
  foldl (fun t label => (template_Parse t (Label_Value label)).1) t pre.

Definition parsesAsSingleText (t : Template) (label : Label) : bool :=
  singleTextNode (template_Parse t (Label_Value label)).2.

(** A label of [l] is literal when, at its turn in the loop, its value
    parses without error into a single text node. *)
Definition literalIn (l : Labels) (label : Label) : Prop :=
  exists pre post,
    l = pre ++ label :: post /\
    parsesAsSingleText (templateAfter template_New pre) label = true.

(** The inner loop of [matches]: false at the first matcher that fails. *)
Fixpoint matchersHold (matchers : list Matcher) (nonTemplated : Labels) : bool :=
  match matchers with
  | [] => true
  | m :: rest =>
      if negb (Matcher_Matches m (Labels_Get nonTemplated (Matcher_Name m)))
      then false
      else matchersHold rest nonTemplated
  end.

Fixpoint matcherSetsHold (matcherSets : list (list Matcher)) (nonTemplated : Labels) : bool :=
  match matcherSets with
  | [] => true
  | matchers :: rest =>
      if matchersHold matchers nonTemplated then matcherSetsHold rest nonTemplated
      else false
  end.

Definition matches (matcherSets : list (list Matcher)) (l : Labels) : bool :=
  if bool_decide (length matcherSets = 0) then true
  else matcherSetsHold matcherSets (nonTemplatedLabels l).

(** The reading of the comment in [matches] (a label value is
    non-templated if it is one node of type NodeText): a label is literal
    when its value, parsed on its own by a fresh template, is a single
    text node. [matchesLiteral] is [matches] under that reading: every
    matcher of every set on the literal labels, a name without literal
    label being given the empty string. *)
Definition literalValue (label : Label) : bool :=
  parsesAsSingleText template_New label.

Definition literalLabels (l : Labels) : Labels :=
  filter (fun label => literalValue label = true) l.

Definition matchesLiteral (matcherSets : list (list Matcher)) (l : Labels) : bool :=
  if bool_decide (length matcherSets = 0) then true
  else matcherSetsHold matcherSets (literalLabels l).

(** The body of the outer loop of [filterRules] for one group: the rules
    are compacted in place, and the group is kept when a rule is left. *)
Definition filterGroup (matcherSets : list (list Matcher)) (g : RuleGroup) : option RuleGroup :=
  let rules :=
    compact (fun r => if matches matcherSets (Rule_GetLabels r) then Some r else None)
            (Group_Rules g) in
  if bool_decide (length rules ≠ 0) then Some (Group_withRules g rules) else None.

Definition filterRules (ruleGroups : list RuleGroup) (matcherSets : list (list Matcher))
  : list RuleGroup :=
  if bool_decide (length matcherSets = 0) then ruleGroups
  else compact (filterGroup matcherSets) ruleGroups.

(** The rules of a group that satisfy the matcher sets, in order. *)
Definition retainedRules (matcherSets : list (list Matcher)) (g : RuleGroup) : list Rule :=
  filter (fun r => matches matcherSets (Rule_GetLabels r) = true) (Group_Rules g).

(** A rule of a group is retained by [filterRules] when the output has
    a group holding it. *)
Definition retainedRule (matcherSets : list (list Matcher)) (g : RuleGroup) (r : Rule) : Prop :=
  exists g', g' ∈ filterRules [g] matcherSets /\ r ∈ Group_Rules g'.

(** One iteration of the second loop of [dedupRules]. Each [continue]
    branch appends the rule and leaves [seenRules] alone; the other
    paths record the rule and reach the append after the conditional. *)
Definition dedupRulesStep (st : gmap string Rule * list Rule) (r : Rule)
  : gmap string Rule * list Rule :=
  let '(seenRules, uniqueRules) := st in
  match seenRules !! Rule_String r with
  | Some existingRule =>
      let recordingDiffers :=
        match GetRecording existingRule, GetRecording r with
        | Some existingRecording, Some currentRecording =>
            negb (RecordingRule_Compare existingRecording currentRecording =? 0)%Z
        | _, _ => false
        end in
      if recordingDiffers then (seenRules, uniqueRules ++ [r])
      else
        let alertDiffers :=
          match GetAlert existingRule, GetAlert r with
          | Some existingAlert, Some currentAlert =>
              negb (Alert_Compare existingAlert currentAlert =? 0)%Z
          | _, _ => false
          end in
        if alertDiffers then (seenRules, uniqueRules ++ [r])
        else (<[Rule_String r := r]> seenRules, uniqueRules ++ [r])
  | None => (<[Rule_String r := r]> seenRules, uniqueRules ++ [r])
  end.

Definition dedupRules (rules : list Rule) (replicaLabels : gset string) : list Rule :=
  if bool_decide (length rules = 0) then rules
  else
    let rules := normalizeRule replicaLabels <$> rules in
    (foldl dedupRulesStep (∅, []) rules).2.

(** One iteration of [dedupGroups]. [seenGroups] holds pointers to the
    groups already in [uniqueGroups]; a pointer is the position of its
    group there, so that appending rules through it changes the group
    the output holds. The groups of the input are distinct objects, one
    per delivered message. *)
Definition dedupGroupsStep (st : gmap string nat * list RuleGroup) (g : RuleGroup)
  : gmap string nat * list RuleGroup :=
  let '(seenGroups, uniqueGroups) := st in
  match seenGroups !! Group_Name g with
  | Some existingGroup =>
      (seenGroups,
       alter (fun e => Group_withRules e (Group_Rules e ++ Group_Rules g))
             existingGroup uniqueGroups)
  | None =>
      (<[Group_Name g := length uniqueGroups]> seenGroups, uniqueGroups ++ [g])
  end.

Definition dedupGroups (groups : list RuleGroup) : list RuleGroup :=
  if bool_decide (length groups = 0) then []
  else (foldl dedupGroupsStep (∅, []) groups).2.

(** The loop invariant of [dedupGroups]: the kept groups have distinct
    names, and the map of seen groups points, for each name, at the
    kept group of that name. *)
Definition seenGroupsInv (seenGroups : gmap string nat) (uniqueGroups : list RuleGroup) : Prop :=
  NoDup (Group_Name <$> uniqueGroups) /\
  forall n i, seenGroups !! n = Some i <-> (Group_Name <$> uniqueGroups) !! i = Some n.

(** Merging one group into the groups kept so far, without the map:
    its rules go to the first kept group of its name, or the group is
    added at the end. *)
Fixpoint mergeInto (uniqueGroups : list RuleGroup) (g : RuleGroup) : list RuleGroup :=
  match uniqueGroups with
  | [] => [g]
  | u :: rest =>
      if decide (Group_Name u = Group_Name g)
      then Group_withRules u (Group_Rules u ++ Group_Rules g) :: rest
      else u :: mergeInto rest g
  end.

(** The distinct names of a list, in the order of their first
    occurrence. *)
Fixpoint firstSeen (names : list string) : list string :=
  match names with
  | [] => []
  | n :: rest => n :: filter (fun m => m <> n) (firstSeen rest)
  end.

(** The rules of all groups called [name], concatenated in the order of
    the groups. *)
Definition rulesNamed (name : string) (groups : list RuleGroup) : list Rule :=
  concat (Group_Rules <$> filter (fun g => Group_Name g = name) groups).

(** The selector loop of [Rules]: the matcher sets in order, or the
    error of the first selector that does not parse. *)
Fixpoint compileSelectors (selectors : list string) : list (list Matcher) + error :=
  match selectors with
  | [] => inl []
  | s :: rest =>
      match ParseMetricSelector s with
      | inr err => inr err
      | inl matchers =>
          match compileSelectors rest with
          | inr err => inr err
          | inl sets => inl (matchers :: sets)
          end
      end
  end.

Definition Rules (rr : GRPCClient) (ctx : Context) (req : RulesRequest) : RulesResult :=
  let resp := newRulesServer ctx in
  let '(resp, perr) := proxy rr rulesServer rulesServer_stream req resp in
  match perr with
  | Some err =>
      {| res_groups := None; res_warnings := [];
         res_err := Some (errors_Wrap err "proxy Rules") |}
  | None =>
      match compileSelectors (MatcherString req) with
      | inr err =>
          {| res_groups := None; res_warnings := [];
             res_err := Some (errors_Wrap err "parser ParseMetricSelector") |}
      | inl matcherSets =>
          let groups := filterRules (srv_groups resp) matcherSets in
          let groups := dedupGroups groups in
          let groups :=
            (fun g => Group_withRules g (dedupRules (Group_Rules g) (replicaLabels rr)))
              <$> groups in
          {| res_groups := Some groups; res_warnings := srv_warnings resp;
             res_err := None |}
      end
  end.

End Engine.

Arguments nonTemplatedFrom {Template}.
Arguments nonTemplatedLabels {Template}.
Arguments templateAfter {Template}.
Arguments parsesAsSingleText {Template}.
Arguments literalIn {Template}.
Arguments matches re_MatchString {Template}.
Arguments filterGroup re_MatchString {Template}.
Arguments filterRules re_MatchString {Template}.
Arguments retainedRule re_MatchString {Template}.
Arguments retainedRules re_MatchString {Template}.
Arguments literalValue {Template}.
Arguments literalLabels {Template}.
Arguments matchesLiteral re_MatchString {Template}.
Arguments Rules re_MatchString {Template}.

(** ** Stand-ins for the parameters, used by the examples *)

(** A regular-expression engine for patterns without metacharacters: the
    anchored pattern matches exactly itself. *)
Definition literal_MatchString (pattern s : string) : bool := String.eqb pattern s.

(** A label-template parser over a stateless template: the empty text has
    no node, a text holding the left delimiter is one action node, any
    other text is one text node. *)
Definition plain_Parse (t : unit) (text : string) : unit * option (list NodeType) :=
  if String.eqb text "" then (t, Some [])
  else match String.index 0 "{{" text with
       | Some _ => (t, Some [NodeAction])
       | None => (t, Some [NodeText])
       end.

(** A text of white space only; the empty text is one. *)
Fixpoint isBlank (text : string) : bool :=
  match text with
  | EmptyString => true
  | String c rest =>
      let n := Ascii.nat_of_ascii c in
      ((Nat.eqb n 32) || ((9 <=? n) && (n <=? 13)))%nat && isBlank rest
  end.

(** [Parse] of text/template on a template that is parsed again and
    again, as the package documents it: a body of white space only is
    empty and does not replace the body the template already has. The
    template is its body ([None] before the first parse); the nodes of a
    text are those of [plain_Parse]. *)
Definition redefining_Parse (t : option (list NodeType)) (text : string)
    : option (list NodeType) * option (list NodeType) :=
  match (plain_Parse tt text).2 with
  | None => (t, None)
  | Some tree =>
      match t with
      | Some old => if isBlank text then (t, Some old) else (Some tree, Some tree)
      | None => (Some tree, Some tree)
      end
  end.

(** The selector [{job=QaQ}], Q the double quote. *)
Definition selector_job_a : string :=
  let q := Ascii.ascii_of_nat 34 in
  String.append "{job=" (String q (String.append "a" (String q "}"))).

(** A selector parser that knows two selectors and rejects the rest. *)
Definition table_ParseMetricSelector (s : string) : list Matcher + error :=
  if String.eqb s selector_job_a then
    inl [{| Matcher_Type := MatchEqual; Matcher_Name := "job"; Matcher_Value := "a" |}]
  else if String.eqb s "{}" then inl []
  else inr (errors_New "parse error").

(** ** Sample data of the examples *)

(** A group without rules. *)
Definition emptyGroup : RuleGroup :=
  {| Group_Name := "g1"; Group_File := "rules.yaml"; Group_Rules := [] |}.

(** A sink whose context is done, with nothing accumulated. *)
Definition doneSink : rulesServer := newRulesServer {| ctx_done := true |}.

(** The alerting rule [Up] as one replica reports it, and the same rule
    without the replica label. *)
Definition upRule (replica : string) : Rule :=
  Rule_Alert {| Alert_Name := "Up"; Alert_Query := "up == 0";
                Alert_Labels := [ {| Label_Name := "replica"; Label_Value := replica |};
                                  {| Label_Name := "alertname"; Label_Value := "Up" |} ] |}.

Definition upStripped : Rule :=
  Rule_Alert {| Alert_Name := "Up"; Alert_Query := "up == 0";
                Alert_Labels := [ {| Label_Name := "alertname"; Label_Value := "Up" |} ] |}.

(** A collaborator that delivers the messages of a script in order, gives
    up at the first delivery the sink rejects, and otherwise ends with
    [final]. *)
Fixpoint deliver {S : Type} (stream : Rules_RulesServer S) (msgs : list RulesResponse)
    (final : option error) (s : S) : S * option error :=
  match msgs with
  | [] => (s, final)
  | m :: rest =>
      let '(s', e) := stream_Send stream s m in
      match e with
      | Some err => (s', Some err)
      | None => deliver stream rest final s'
      end
  end.

Definition scripted_proxy (msgs : list RulesResponse) (final : option error) : RulesServer :=
  fun S stream _ s => deliver stream msgs final s.

(** A request with one selector that does not parse, and a request with
    the selector [selector_job_a]. *)
Definition badRequest : RulesRequest := {| MatcherString := ["{"] |}.
Definition jobRequest : RulesRequest := {| MatcherString := [selector_job_a] |}.

(** The matcher sets of [jobRequest]. *)
Definition jobMatcherSets : list (list Matcher) :=
  [[{| Matcher_Type := MatchEqual; Matcher_Name := "job"; Matcher_Value := "a" |}]].

(** The rule of a job, and a group with the rules of two jobs. *)
Definition jobRule (job : string) : Rule :=
  Rule_Recording {| Recording_Name := "job:up:sum"; Recording_Query := "sum(up)";
                    Recording_Labels := [ {| Label_Name := "job"; Label_Value := job |} ] |}.

Definition jobGroup : RuleGroup :=
  {| Group_Name := "g1"; Group_File := "rules.yaml";
     Group_Rules := [jobRule "a"; jobRule "b"] |}.

(** A script that delivers a warning and a group. *)
Definition sampleScript : list RulesResponse :=
  [Response_Warning "replica 1 unreachable"; Response_Group (Some jobGroup)].

(** A client whose collaborator fails after the script, and one whose
    collaborator ends well. *)
Definition failingClient : GRPCClient :=
  NewGRPCClientWithDedup (scripted_proxy sampleScript (Some (errors_New "upstream down")))
                         ["replica"].

Definition healthyClient : GRPCClient :=
  NewGRPCClientWithDedup (scripted_proxy sampleScript None) ["replica"].

(** The sink once the script has been delivered. *)
Definition sampleSink (ctx : Context) : rulesServer :=
  {| srv_ctx := ctx;
     srv_warnings := [errors_New "replica 1 unreachable"];
     srv_groups := [jobGroup] |}.

(** Modelled from the spec: the canonical identity string of a rule
    ([Rule.String], generated code that is not among the sources), computed
    from the rule's whole content. *)
Definition labelsText (ls : Labels) : string :=
  foldr (fun l acc =>
           String.append (Label_Name l)
             (String.append "=" (String.append (Label_Value l) (String.append ";" acc))))
        "" ls.

Definition text_Rule_String (r : Rule) : string :=
  match r with
  | Rule_Recording x =>
      String.append "recording:"
        (String.append (Recording_Name x)
           (String.append ":" (String.append (Recording_Query x)
              (String.append ":" (labelsText (Recording_Labels x))))))
  | Rule_Alert x =>
      String.append "alert:"
        (String.append (Alert_Name x)
           (String.append ":" (String.append (Alert_Query x)
              (String.append ":" (labelsText (Alert_Labels x))))))
  | Rule_NoResult => ""
  end.

(** Modelled from the spec: the deep comparison of two rules of one
    variant ([Compare] of rulespb, not among the sources): 0 for [Equal],
    another number for [Different]. *)
Definition deep_RecordingRule_Compare (a b : RecordingRule) : Z :=
  if decide (a = b) then 0%Z else 1%Z.

Definition deep_Alert_Compare (a b : Alert) : Z :=
  if decide (a = b) then 0%Z else 1%Z.

(** The matcher of [jobMatcherSets]. *)
Definition jobMatcher : Matcher :=
  {| Matcher_Type := MatchEqual; Matcher_Name := "job"; Matcher_Value := "a" |}.

(** A label set without a [job] label, and a second group. *)
Definition envLabels : Labels := [ {| Label_Name := "env"; Label_Value := "prod" |} ].

Definition otherGroup : RuleGroup :=
  {| Group_Name := "g2"; Group_File := "more.yaml"; Group_Rules := [upRule "0"] |}.

(** A templated label, a label whose value is one space, a matcher for
    that value, and a rule and a group with the two labels. *)
Definition templatedLabel : Label := {| Label_Name := "a"; Label_Value := "{{ .x }}" |}.
Definition blankLabel : Label := {| Label_Name := "b"; Label_Value := " " |}.

Definition blankMatcherSets : list (list Matcher) :=
  [[{| Matcher_Type := MatchEqual; Matcher_Name := "b"; Matcher_Value := " " |}]].

Definition blankRule : Rule :=
  Rule_Recording {| Recording_Name := "job:up:sum"; Recording_Query := "sum(up)";
                    Recording_Labels := [templatedLabel; blankLabel] |}.

Definition blankGroup : RuleGroup :=
  {| Group_Name := "g1"; Group_File := "rules.yaml"; Group_Rules := [blankRule] |}.

(** ** Notions the properties are stated with *)

(** The sink after a sequence of deliveries, whatever each delivery
    answered. *)
Definition sendAll (srv : rulesServer) (msgs : list RulesResponse) : rulesServer :=
  foldl (fun s m => (Send s m).1) srv msgs.

(** The warnings and the groups a sequence of messages adds to the sink. *)
Definition acceptedWarnings (msgs : list RulesResponse) : list error :=
  omap (fun m => if String.eqb (GetWarning m) "" then None
                 else Some (errors_New (GetWarning m))) msgs.

Definition acceptedGroups (msgs : list RulesResponse) : list RuleGroup :=
  omap (fun m => if String.eqb (GetWarning m) "" then GetGroup m else None) msgs.

(** Some group called [name] of the list holds the rule [r]. *)
Definition holdsRule (groups : list RuleGroup) (name : string) (r : Rule) : Prop :=
  exists g, g ∈ groups /\ Group_Name g = name /\ r ∈ Group_Rules g.

(** The first group of a list that bears the name of [o], when [o] has
    all its fields but the rules from it. *)
Definition firstOfName (groups : list RuleGroup) (o : RuleGroup) : Prop :=
  exists pre g post,
    groups = pre ++ g :: post /\
    (Group_Name o ∉ Group_Name <$> pre) /\
    Group_Name g = Group_Name o /\
    o = Group_withRules g (Group_Rules o).

(** A rule whose labels are in the form [dedupRules] leaves them in:
    none is a replica label, and they are ordered by name. *)
Definition normalLabels (replicaLabels : gset string) (r : Rule) : Prop :=
  (forall l, l ∈ Rule_GetLabels r -> Label_Name l ∉ replicaLabels) /\
  sortedByName (Rule_GetLabels r).

(** * Properties *)

Local Close Scope string_scope.

(** ** In-place compaction is a filter *)
Section CompactionFacts.
Context {A : Type} (keep : A -> option A).

(** After the first [i] indices: the write index is at most [i], the
    slice below it holds the kept elements of the first [i] inputs, and
    the slice from [i] on is still the input. *)
Lemma compact_prefix (l : list A) (i : nat) :
  i ≤ length l →
  let st := foldl (compactStep keep) (l, 0) (seq 0 i) in
  st.2 ≤ i ∧ length st.1 = length l ∧
  take st.2 st.1 = omap keep (take i l) ∧ drop i st.1 = drop i l.
Proof.
  induction i as [|i IH]; intros Hi.
  - simpl. repeat split; auto.
  - rewrite seq_S, foldl_app. simpl.
    destruct (IH ltac:(lia)) as (Hn & Hlen & Htake & Hdrop).
    set (st := foldl (compactStep keep) (l, 0) (seq 0 i)) in *.
    destruct (lookup_lt_is_Some_2 l i ltac:(lia)) as [x Hx].
    assert (Hbuf : st.1 !! i = Some x).
    { rewrite <- (Nat.add_0_r i), <- lookup_drop, Hdrop, lookup_drop.
      by rewrite Nat.add_0_r. }
    rewrite (take_S_r l i x Hx), omap_app. simpl.
    unfold compactStep. rewrite Hbuf.
    destruct (keep x) as [y|] eqn:Hk; simpl.
    + repeat split.
      * lia.
      * by rewrite length_insert.
      * rewrite (take_S_r _ (st.2) y).
        -- by rewrite take_insert_ge, Htake by lia.
        -- apply list_lookup_insert_eq. lia.
      * rewrite drop_insert_lt by lia.
        rewrite <- (Nat.add_1_r i), <- !drop_drop. by rewrite Hdrop.
    + repeat split.
      * lia.
      * done.
      * by rewrite Htake, app_nil_r.
      * rewrite <- (Nat.add_1_r i), <- !drop_drop. by rewrite Hdrop.
Qed.

Lemma compact_omap (l : list A) : compact keep l = omap keep l.
Proof.
  unfold compact.
  destruct (compact_prefix l (length l) ltac:(lia)) as (_ & _ & Htake & _).
  simpl in Htake. by rewrite Htake, firstn_all.
Qed.
End CompactionFacts.

(** ** The selector filter *)
Section FilterFacts.
Variable re_MatchString : string -> string -> bool.
Variable Template : Type.
Variable template_New : Template.
Variable template_Parse : Template -> string -> Template * option (list NodeType).

Local Abbreviation Matches := (Matcher_Matches re_MatchString).
Local Abbreviation nonTemplated := (nonTemplatedLabels template_New template_Parse).
Local Abbreviation matches' := (matches re_MatchString template_New template_Parse).
Local Abbreviation filterRules' := (filterRules re_MatchString template_New template_Parse).
Local Abbreviation filterGroup' := (filterGroup re_MatchString template_New template_Parse).
Local Abbreviation retained := (retainedRules re_MatchString template_New template_Parse).
Local Abbreviation allHold := (allMatchersHold re_MatchString).

Lemma matchersHold_true (matchers : list Matcher) (nt : Labels) :
  matchersHold re_MatchString matchers nt = true <->
  forall m, m ∈ matchers -> Matches m (Labels_Get nt (Matcher_Name m)) = true.
Proof.
  induction matchers as [|m rest IH]; simpl.
  - split; [intros _ m Hm; inversion Hm | done].
  - destruct (Matches m _) eqn:Hm; simpl.
    + rewrite IH. split.
      * intros H m' [->|Hin]%elem_of_cons; auto.
      * intros H m' Hin. apply H. by right.
    + split; [done|]. intros H. rewrite <- Hm. apply H. by left.
Qed.

Lemma matcherSetsHold_true (matcherSets : list (list Matcher)) (nt : Labels) :
  matcherSetsHold re_MatchString matcherSets nt = true <-> allHold matcherSets nt.
Proof.
  unfold allMatchersHold. induction matcherSets as [|ms rest IH]; simpl.
  - split; [intros _ ? ? H; inversion H | done].
  - destruct (matchersHold _ ms nt) eqn:Hms.
    + rewrite IH. pose proof (proj1 (matchersHold_true _ _) Hms) as Hall. split.
      * intros H ms' m [->|Hin]%elem_of_cons; eauto.
      * intros H ms' m Hin. apply H. by right.
    + split; [done|]. intros H. rewrite <- Hms. apply matchersHold_true.
      intros m. apply H. by left.
Qed.

Lemma matches_true (matcherSets : list (list Matcher)) (l : Labels) :
  matches' matcherSets l = true <-> allHold matcherSets (nonTemplated l).
Proof.
  unfold matches. case_bool_decide as Hlen.
  - destruct matcherSets; [|done]. split; [|done].
    intros _ ? ? H. inversion H.
  - apply matcherSetsHold_true.
Qed.

Lemma nonTemplatedFrom_elem (t : Template) (l : Labels) (label : Label) :
  label ∈ nonTemplatedFrom template_Parse t l <->
  exists pre post, l = pre ++ label :: post /\
    parsesAsSingleText template_Parse (templateAfter template_Parse t pre) label = true.
Proof.
  revert t. induction l as [|x rest IH]; intros t; simpl.
  - split; [intros H; inversion H|]. intros (pre & post & Heq & _).
    by destruct pre.
  - destruct (template_Parse t (Label_Value x)) as [t' parsed] eqn:Hp.
    assert (Hstep : forall y,
      (exists pre post, rest = pre ++ y :: post /\
        parsesAsSingleText template_Parse (templateAfter template_Parse t' pre) y = true) ->
      exists pre post, x :: rest = pre ++ y :: post /\
        parsesAsSingleText template_Parse (templateAfter template_Parse t pre) y = true).
    { intros y (pre & post & -> & Hy). exists (x :: pre), post. split; [done|].
      simpl. by rewrite Hp. }
    assert (Hback : forall pre post,
      x :: rest = pre ++ label :: post ->
      parsesAsSingleText template_Parse (templateAfter template_Parse t pre) label = true ->
      (x = label /\ singleTextNode parsed = true) \/
      exists pre' post', rest = pre' ++ label :: post' /\
        parsesAsSingleText template_Parse (templateAfter template_Parse t' pre') label = true).
    { intros [|y pre] post Heq Hy; simpl in *; simplify_eq.
      - left. split; [done|]. unfold parsesAsSingleText in Hy. by rewrite Hp in Hy.
      - right. exists pre, post. split; [done|]. by rewrite Hp in Hy. }
    destruct (singleTextNode parsed) eqn:Hs.
    + rewrite elem_of_cons, IH. split.
      * intros [->|H]; [|by apply Hstep].
        exists [], rest. split; [done|]. unfold parsesAsSingleText. simpl.
        by rewrite Hp.
      * intros (pre & post & Heq & Hy).
        destruct (Hback pre post Heq Hy) as [[-> _]|H]; auto.
    + rewrite IH. split; [by apply Hstep|].
      intros (pre & post & Heq & Hy).
      destruct (Hback pre post Heq Hy) as [[_ ?]|H]; [done|auto].
Qed.

Lemma nonTemplated_literal (l : Labels) (label : Label) :
  label ∈ nonTemplated l <-> literalIn template_New template_Parse l label.
Proof. apply nonTemplatedFrom_elem. Qed.

Lemma Labels_Get_absent (ls : Labels) (name : string) :
  name ∉ Label_Name <$> ls -> Labels_Get ls name = EmptyString.
Proof.
  induction ls as [|x rest IH]; simpl; [done|].
  rewrite not_elem_of_cons. intros [Hne Hrest].
  case_bool_decide; [congruence | auto].
Qed.

Lemma omap_keep_filter {A} (f : A -> bool) (l : list A) :
  omap (fun x => if f x then Some x else None) l = filter (fun x => f x = true) l.
Proof.
  induction l as [|x l IH]; [done|].
  rewrite filter_cons, <- IH. simpl. destruct (f x); case_decide; done.
Qed.

Lemma filterGroup_retained (matcherSets : list (list Matcher)) (g : RuleGroup) :
  filterGroup' matcherSets g =
  if decide (retained matcherSets g = []) then None
  else Some (Group_withRules g (retained matcherSets g)).
Proof.
  unfold filterGroup, retainedRules. rewrite compact_omap, omap_keep_filter.
  destruct (filter _ (Group_Rules g)) eqn:Hf; by case_decide.
Qed.

Lemma filterRules_omap (ruleGroups : list RuleGroup) (matcherSets : list (list Matcher)) :
  matcherSets <> [] ->
  filterRules' ruleGroups matcherSets = omap (filterGroup' matcherSets) ruleGroups.
Proof.
  intros Hne. unfold filterRules. case_bool_decide as Hlen.
  - by destruct matcherSets.
  - apply compact_omap.
Qed.

Lemma retainedRules_elem (matcherSets : list (list Matcher)) (g : RuleGroup) (r : Rule) :
  r ∈ retained matcherSets g <->
  r ∈ Group_Rules g /\ matches' matcherSets (Rule_GetLabels r) = true.
Proof. unfold retainedRules. rewrite list_elem_of_filter. tauto. Qed.

Lemma retainedRule_iff (matcherSets : list (list Matcher)) (g : RuleGroup) (r : Rule) :
  matcherSets <> [] ->
  retainedRule re_MatchString template_New template_Parse matcherSets g r <->
  r ∈ Group_Rules g /\ matches' matcherSets (Rule_GetLabels r) = true.
Proof.
  intros Hne. unfold retainedRule. rewrite filterRules_omap by done.
  simpl omap. rewrite filterGroup_retained, <- retainedRules_elem.
  case_decide as He; simpl.
  - rewrite He. split; [intros (g' & H & _); inversion H | intros H; inversion H].
  - split.
    + intros (g' & ->%list_elem_of_singleton & Hr). done.
    + intros Hr. eexists. split; [apply list_elem_of_singleton; reflexivity | done].
Qed.

Lemma filterRules_retained (ruleGroups : list RuleGroup) (matcherSets : list (list Matcher)) :
  matcherSets <> [] ->
  filterRules' ruleGroups matcherSets =
  (fun g => Group_withRules g (retained matcherSets g))
    <$> filter (fun g => retained matcherSets g <> []) ruleGroups.
Proof.
  intros Hne. rewrite filterRules_omap by done.
  induction ruleGroups as [|g gs IH]; [done|].
  rewrite filter_cons. simpl omap. rewrite filterGroup_retained.
  repeat case_decide; try done; rewrite ?fmap_cons; f_equal; exact IH.
Qed.

Lemma ruleCount_cons (g : RuleGroup) (gs : list RuleGroup) :
  ruleCount (g :: gs) = length (Group_Rules g) + ruleCount gs.
Proof. done. Qed.

(** With at least one matcher set, a rule of a group is retained by the
    filter iff every matcher of every set matches the labels the first
    loop of [matches] keeps, each matcher being given the kept value of
    its label name; a label is kept iff at its turn, on the template the
    earlier labels left, the test of the loop succeeds, and a name with
    no kept label is matched against the empty string. *)
Theorem retained_iff_all_matchers_on_literal_labels
    (matcherSets : list (list Matcher)) (g : RuleGroup) (r : Rule) :
  matcherSets <> [] ->
  r ∈ Group_Rules g ->
  (retainedRule re_MatchString template_New template_Parse matcherSets g r <->
     allHold matcherSets (nonTemplated (Rule_GetLabels r))) /\
  (forall label,
     label ∈ nonTemplated (Rule_GetLabels r) <->
     literalIn template_New template_Parse (Rule_GetLabels r) label) /\
  (forall name,
     name ∉ Label_Name <$> nonTemplated (Rule_GetLabels r) ->
     Labels_Get (nonTemplated (Rule_GetLabels r)) name = EmptyString).
Proof.
  intros Hne Hr. split; [|split].
  - rewrite retainedRule_iff by done. rewrite matches_true. tauto.
  - intros label. apply nonTemplated_literal.
  - intros name. apply Labels_Get_absent.
Qed.

(** C8: with at least one matcher set, the output of the filter is the
    input groups that retain a rule, in input order, each with exactly
    its retained rules; so no output group is empty, every output group
    is an input group with a subsequence of its rules, and the number of
    rules does not grow. *)
Theorem filterRules_keeps_order_and_shrinks
    (ruleGroups : list RuleGroup) (matcherSets : list (list Matcher)) :
  matcherSets <> [] ->
  let out := filterRules' ruleGroups matcherSets in
  out = (fun g => Group_withRules g (retained matcherSets g))
          <$> filter (fun g => retained matcherSets g <> []) ruleGroups /\
  Forall (fun o => Group_Rules o <> []) out /\
  (exists kept,
     sublist kept ruleGroups /\
     Forall2 (fun o g => o = Group_withRules g (Group_Rules o) /\
                         sublist (Group_Rules o) (Group_Rules g)) out kept) /\
  ruleCount out <= ruleCount ruleGroups.
Proof.
  intros Hne out. subst out. rewrite filterRules_retained by done.
  split; [done|]. split; [|split].
  - apply Forall_fmap, Forall_forall. intros g [Hg _]%list_elem_of_filter. done.
  - exists (filter (fun g => retained matcherSets g <> []) ruleGroups).
    split; [apply sublist_filter|].
    apply Forall2_fmap_l, Forall_Forall2_diag, Forall_forall.
    intros g _. simpl. split; [done|]. apply sublist_filter.
  - induction ruleGroups as [|g gs IH]; [done|].
    rewrite filter_cons, ruleCount_cons.
    pose proof (length_filter (fun r => matches' matcherSets (Rule_GetLabels r) = true)
                  (Group_Rules g)) as Hlen.
    case_decide; [|lia].
    rewrite fmap_cons, ruleCount_cons. simpl. unfold retainedRules at 1. lia.
Qed.

(** C9: with no matcher set the filter is the identity on the group
    list. *)
Theorem filterRules_no_matchers_identity (ruleGroups : list RuleGroup) :
  filterRules' ruleGroups [] = ruleGroups.
Proof. reflexivity. Qed.
End FilterFacts.

(** ** The group merger *)
Section MergeFacts.

Local Abbreviation names := (fmap (M:=list) Group_Name).

Lemma mergeInto_fresh (u : list RuleGroup) (g : RuleGroup) :
  Group_Name g ∉ names u -> mergeInto u g = u ++ [g].
Proof.
  induction u as [|x u IH]; simpl; [done|].
  rewrite not_elem_of_cons. intros [Hne Hu].
  case_decide; [congruence|]. by rewrite IH.
Qed.

Lemma mergeInto_alter (u : list RuleGroup) (g : RuleGroup) (i : nat) :
  NoDup (names u) -> names u !! i = Some (Group_Name g) ->
  alter (fun e => Group_withRules e (Group_Rules e ++ Group_Rules g)) i u = mergeInto u g.
Proof.
  revert i. induction u as [|x u IH]; intros i Hnd Hi; [done|].
  rewrite fmap_cons in Hnd. apply NoDup_cons in Hnd as [Hx Hnd].
  destruct i as [|i]; simpl in *.
  - case_decide; [done|congruence].
  - case_decide as Heq.
    + exfalso. apply Hx. rewrite Heq. eapply list_elem_of_lookup_2, Hi.
    + f_equal. by apply IH.
Qed.

Lemma names_mergeInto (u : list RuleGroup) (g : RuleGroup) :
  names (mergeInto u g) =
  if decide (Group_Name g ∈ names u) then names u else names u ++ [Group_Name g].
Proof.
  induction u as [|x u IH]; [done|].
  cbn [mergeInto]. rewrite (fmap_cons Group_Name x u).
  destruct (decide (Group_Name x = Group_Name g)) as [Hx|Hx].
  - rewrite decide_True; [done|]. rewrite Hx. by left.
  - rewrite fmap_cons, IH. destruct (decide (Group_Name g ∈ names u)) as [Hin|Hin].
    + rewrite decide_True; [done|]. by right.
    + rewrite decide_False; [done|]. rewrite not_elem_of_cons. split; [congruence|done].
Qed.

Lemma NoDup_names_mergeInto (u : list RuleGroup) (g : RuleGroup) :
  NoDup (names u) -> NoDup (names (mergeInto u g)).
Proof.
  intros Hnd. rewrite names_mergeInto. case_decide as Hin; [done|].
  apply NoDup_app. split; [done|]. split; [|apply NoDup_singleton].
  intros n Hn. rewrite list_elem_of_singleton. intros ->. done.
Qed.

Lemma dedupGroupsStep_mergeInto seen (u : list RuleGroup) (g : RuleGroup) :
  seenGroupsInv seen u ->
  (dedupGroupsStep (seen, u) g).2 = mergeInto u g /\
  seenGroupsInv (dedupGroupsStep (seen, u) g).1 (dedupGroupsStep (seen, u) g).2.
Proof.
  intros [Hnd Hseen]. unfold dedupGroupsStep.
  destruct (seen !! Group_Name g) as [i|] eqn:Hg; simpl.
  - pose proof (proj1 (Hseen _ _) Hg) as Hi.
    rewrite (mergeInto_alter u g i Hnd Hi). split; [done|].
    assert (Hnames : names (mergeInto u g) = names u).
    { rewrite names_mergeInto, decide_True; [done|].
      eapply list_elem_of_lookup_2, Hi. }
    split; rewrite Hnames; done.
  - assert (Hfresh : Group_Name g ∉ names u).
    { intros [i Hi]%list_elem_of_lookup_1. apply Hseen in Hi. congruence. }
    rewrite (mergeInto_fresh u g Hfresh). split; [done|]. split.
    + rewrite <- (mergeInto_fresh u g Hfresh). by apply NoDup_names_mergeInto.
    + intros n i. rewrite fmap_app. simpl.
      destruct (decide (Group_Name g = n)) as [<-|Hne].
      * rewrite lookup_insert_eq. split.
        -- intros [= <-]. rewrite lookup_app_r; rewrite length_fmap; [|lia].
           by rewrite Nat.sub_diag.
        -- intros Hi. f_equal.
           destruct (decide (i < length (names u))) as [Hlt|Hge].
           ++ rewrite lookup_app_l in Hi by done.
              exfalso. apply Hfresh. eapply list_elem_of_lookup_2, Hi.
           ++ apply lookup_lt_Some in Hi. rewrite length_app in Hi.
              rewrite length_fmap in *. simpl in Hi. lia.
      * rewrite lookup_insert_ne by done. rewrite Hseen. split.
        -- intros Hi. rewrite lookup_app_l; [done|]. by eapply lookup_lt_Some.
        -- intros Hi. destruct (decide (i < length (names u))) as [Hlt|Hge].
           ++ by rewrite lookup_app_l in Hi.
           ++ rewrite lookup_app_r in Hi by lia.
              destruct (i - length (names u)); simpl in Hi; [congruence|done].
Qed.

Lemma dedupGroups_loop_mergeInto seen (u gs : list RuleGroup) :
  seenGroupsInv seen u ->
  (foldl dedupGroupsStep (seen, u) gs).2 = foldl mergeInto u gs.
Proof.
  revert seen u. induction gs as [|g gs IH]; intros seen u Hinv; [done|].
  cbn [foldl]. destruct (dedupGroupsStep_mergeInto seen u g Hinv) as [Heq Hinv'].
  destruct (dedupGroupsStep (seen, u) g) as [seen' u'].
  simpl in Heq, Hinv'. rewrite <- Heq. by apply IH.
Qed.

Lemma dedupGroups_mergeInto (gs : list RuleGroup) :
  dedupGroups gs = foldl mergeInto [] gs.
Proof.
  unfold dedupGroups. case_bool_decide as Hlen.
  - by destruct gs.
  - apply dedupGroups_loop_mergeInto. split; [constructor|].
    intros n i. rewrite lookup_empty. by destruct i.
Qed.

Lemma filter_all {A} (P : A -> Prop) `{!forall x, Decision (P x)} (l : list A) :
  (forall x, P x) -> filter P l = l.
Proof.
  intros HP. induction l as [|x l IH]; [done|].
  rewrite filter_cons, decide_True by done. by rewrite IH.
Qed.

Lemma firstSeen_elem (l : list string) (n : string) : n ∈ firstSeen l <-> n ∈ l.
Proof.
  induction l as [|x l IH]; simpl; [done|].
  rewrite !elem_of_cons, list_elem_of_filter, IH.
  split; [intros [?|[? ?]]; auto | intros [?|?]; [by left|]].
  destruct (decide (n = x)); auto.
Qed.

Lemma firstSeen_NoDup (l : list string) : NoDup (firstSeen l).
Proof.
  induction l as [|x l IH]; simpl; constructor.
  - rewrite list_elem_of_filter. by intros [? _].
  - by apply NoDup_filter.
Qed.

Lemma names_foldl_mergeInto (u gs : list RuleGroup) :
  names (foldl mergeInto u gs) =
  names u ++ filter (fun n => n ∉ names u) (firstSeen (names gs)).
Proof.
  revert u. induction gs as [|g gs IH]; intros u.
  - simpl. by rewrite filter_nil, app_nil_r.
  - cbn [foldl]. rewrite IH, names_mergeInto, fmap_cons. cbn [firstSeen].
    rewrite filter_cons, list_filter_filter.
    destruct (decide (Group_Name g ∈ names u)) as [Hin|Hin].
    + rewrite decide_False by (intros H; by apply H). f_equal.
      apply list_filter_iff. intros n. split; [|tauto].
      intros Hn. split; [done|]. intros ->. done.
    + rewrite decide_True by done. rewrite <- app_assoc. simpl. do 2 f_equal.
      apply list_filter_iff. intros n.
      rewrite elem_of_app, list_elem_of_singleton. tauto.
Qed.

Lemma rulesNamed_cons (n : string) (g : RuleGroup) (gs : list RuleGroup) :
  rulesNamed n (g :: gs) =
  (if decide (Group_Name g = n) then Group_Rules g else []) ++ rulesNamed n gs.
Proof. unfold rulesNamed. rewrite filter_cons. by case_decide. Qed.

Lemma rulesNamed_app (n : string) (l k : list RuleGroup) :
  rulesNamed n (l ++ k) = rulesNamed n l ++ rulesNamed n k.
Proof. unfold rulesNamed. by rewrite filter_app, fmap_app, concat_app. Qed.

Lemma rulesNamed_absent (n : string) (gs : list RuleGroup) :
  n ∉ names gs -> rulesNamed n gs = [].
Proof.
  induction gs as [|g gs IH]; [done|].
  rewrite fmap_cons, not_elem_of_cons, rulesNamed_cons. intros [Hne Hn].
  rewrite decide_False by congruence. by apply IH.
Qed.

Lemma rulesNamed_mergeInto (n : string) (u : list RuleGroup) (g : RuleGroup) :
  NoDup (names u) -> rulesNamed n (mergeInto u g) = rulesNamed n (u ++ [g]).
Proof.
  induction u as [|x u IH]; [done|].
  rewrite fmap_cons, NoDup_cons. intros [Hx Hnd]. cbn [mergeInto].
  rewrite <- app_comm_cons. case_decide as Heq.
  - rewrite !rulesNamed_cons, rulesNamed_app, rulesNamed_cons. simpl.
    unfold rulesNamed at 3. simpl. rewrite app_nil_r.
    case_decide as Hn.
    + rewrite (rulesNamed_absent n u) by congruence.
      rewrite decide_True by congruence. by rewrite app_nil_r.
    + rewrite decide_False by congruence. by rewrite app_nil_r.
  - by rewrite !rulesNamed_cons, IH.
Qed.

Lemma rulesNamed_foldl_mergeInto (n : string) (u gs : list RuleGroup) :
  NoDup (names u) -> rulesNamed n (foldl mergeInto u gs) = rulesNamed n (u ++ gs).
Proof.
  revert u. induction gs as [|g gs IH]; intros u Hnd.
  - by rewrite app_nil_r.
  - cbn [foldl]. rewrite IH by by apply NoDup_names_mergeInto.
    rewrite rulesNamed_app, rulesNamed_mergeInto by done.
    by rewrite <- rulesNamed_app, <- app_assoc.
Qed.

Lemma rulesNamed_own (gs : list RuleGroup) (g : RuleGroup) :
  NoDup (names gs) -> g ∈ gs -> rulesNamed (Group_Name g) gs = Group_Rules g.
Proof.
  induction gs as [|x gs IH]; [intros _ H; inversion H|].
  rewrite fmap_cons, NoDup_cons, elem_of_cons, rulesNamed_cons.
  intros [Hx Hnd] [->|Hin].
  - rewrite decide_True by done. rewrite rulesNamed_absent by done. apply app_nil_r.
  - rewrite decide_False; [by apply IH|].
    intros Heq. apply Hx. rewrite Heq. by apply list_elem_of_fmap_2.
Qed.

Lemma ruleCount_app (l k : list RuleGroup) : ruleCount (l ++ k) = ruleCount l + ruleCount k.
Proof. apply sum_list_with_app. Qed.

Lemma ruleCount_mergeInto (u : list RuleGroup) (g : RuleGroup) :
  ruleCount (mergeInto u g) = ruleCount u + length (Group_Rules g).
Proof.
  induction u as [|x u IH]; cbn [mergeInto].
  - unfold ruleCount. simpl. lia.
  - case_decide.
    + unfold ruleCount. simpl. rewrite length_app. lia.
    + unfold ruleCount in *. simpl. rewrite IH. lia.
Qed.

Lemma ruleCount_foldl_mergeInto (u gs : list RuleGroup) :
  ruleCount (foldl mergeInto u gs) = ruleCount u + ruleCount gs.
Proof.
  revert u. induction gs as [|g gs IH]; intros u.
  - unfold ruleCount at 3. simpl. lia.
  - cbn [foldl]. rewrite IH, ruleCount_mergeInto. unfold ruleCount. simpl. lia.
Qed.

(** C7: the merger returns one group per distinct name, the names in
    the order of their first occurrence; the rules of each output group
    are the rules of all input groups of its name, concatenated in input
    order; every input rule is still there, none is removed. *)
Theorem dedupGroups_one_group_per_name (groups : list RuleGroup) :
  let out := dedupGroups groups in
  names out = firstSeen (names groups) /\
  NoDup (names out) /\
  (forall n, n ∈ names out <-> n ∈ names groups) /\
  (forall g, g ∈ out -> Group_Rules g = rulesNamed (Group_Name g) groups) /\
  ruleCount out = ruleCount groups.
Proof.
  intros out. subst out. rewrite dedupGroups_mergeInto.
  assert (Hnames : names (foldl mergeInto [] groups) = firstSeen (names groups)).
  { rewrite names_foldl_mergeInto. simpl. apply filter_all.
    intros n. apply not_elem_of_nil. }
  assert (Hnd : NoDup (names (foldl mergeInto [] groups))).
  { rewrite Hnames. apply firstSeen_NoDup. }
  split; [done|]. split; [done|]. split; [|split].
  - intros n. rewrite Hnames. apply firstSeen_elem.
  - intros g Hg. rewrite <- (rulesNamed_own _ g Hnd Hg).
    rewrite rulesNamed_foldl_mergeInto; [done|constructor].
  - by rewrite ruleCount_foldl_mergeInto.
Qed.
End MergeFacts.

(** ** The replica deduper *)
Section SortFacts.

Lemma ltb_asym (a b : string) : String.ltb a b = true -> String.ltb b a = false.
Proof.
  unfold String.ltb. rewrite (String.compare_antisym b a).
  by destruct (String.compare a b).
Qed.

Lemma insertByName_head (x : Label) (l : Labels) :
  HdRel notAfter x l -> insertByName x l = x :: l.
Proof.
  destruct 1 as [|y l Hxy]; [done|]. simpl. unfold notAfter in Hxy. by rewrite Hxy.
Qed.

Lemma insertByName_HdRel (y x : Label) (l : Labels) :
  notAfter y x -> HdRel notAfter y l -> HdRel notAfter y (insertByName x l).
Proof.
  intros Hyx [|z l' Hyz]; simpl; [by constructor|].
  destruct (String.ltb _ _); by constructor.
Qed.

Lemma insertByName_sorted (x : Label) (l : Labels) :
  sortedByName l -> sortedByName (insertByName x l).
Proof.
  unfold sortedByName. induction 1 as [|y l Hs IH Hhd]; simpl.
  - repeat constructor.
  - destruct (String.ltb (Label_Name y) (Label_Name x)) eqn:Hlt.
    + constructor; [done|]. apply insertByName_HdRel; [|done].
      unfold notAfter. by apply ltb_asym.
    + constructor; [by constructor|]. by constructor.
Qed.

Lemma sortByName_sorted (l : Labels) : sortedByName (sortByName l).
Proof.
  induction l as [|x l IH]; simpl; [constructor|]. by apply insertByName_sorted.
Qed.

Lemma sortByName_fixed (l : Labels) : sortedByName l -> sortByName l = l.
Proof.
  induction 1 as [|x l Hs IH Hhd]; simpl; [done|].
  rewrite IH. by apply insertByName_head.
Qed.

Lemma sortByName_idempotent (l : Labels) : sortByName (sortByName l) = sortByName l.
Proof. apply sortByName_fixed, sortByName_sorted. Qed.

Lemma insertByName_Permutation (x : Label) (l : Labels) : insertByName x l ≡ₚ x :: l.
Proof.
  induction l as [|y l IH]; simpl; [done|].
  destruct (String.ltb _ _); [|done]. rewrite IH. apply Permutation_swap.
Qed.

Lemma sortByName_Permutation (l : Labels) : sortByName l ≡ₚ l.
Proof.
  induction l as [|x l IH]; simpl; [done|].
  by rewrite insertByName_Permutation, IH.
Qed.

Lemma filter_Forall_id {A} (P : A -> Prop) `{!forall x, Decision (P x)} (k : list A) :
  Forall P k -> filter P k = k.
Proof.
  induction 1 as [|x k Hx Hk IH]; [done|].
  by rewrite filter_cons, decide_True, IH.
Qed.

Lemma filter_sortByName (P : Label -> Prop) `{!forall x, Decision (P x)} (l : Labels) :
  Forall P l -> filter P (sortByName l) = sortByName l.
Proof.
  intros HP. apply filter_Forall_id. by rewrite sortByName_Permutation.
Qed.

Lemma GetLabels_SetLabels (r : Rule) (ls : Labels) :
  r <> Rule_NoResult -> Rule_GetLabels (Rule_SetLabels r ls) = ls.
Proof. by destruct r. Qed.

Lemma SetLabels_SetLabels (r : Rule) (ls ls' : Labels) :
  Rule_SetLabels (Rule_SetLabels r ls) ls' = Rule_SetLabels r ls'.
Proof. by destruct r. Qed.

Lemma normalizeRule_labels (L : gset string) (r : Rule) :
  normalizeRule L r =
  Rule_SetLabels r (sortByName (filter (fun l => Label_Name l ∉ L) (Rule_GetLabels r))).
Proof. by destruct r. Qed.

Lemma normalizeRule_idempotent (L : gset string) (r : Rule) :
  normalizeRule L (normalizeRule L r) = normalizeRule L r.
Proof.
  rewrite !normalizeRule_labels. destruct r as [x|x|]; simpl; [| |done].
  - do 2 f_equal. rewrite filter_sortByName, sortByName_idempotent; [done|].
    apply Forall_forall. by intros l [? _]%list_elem_of_filter.
  - do 2 f_equal. rewrite filter_sortByName, sortByName_idempotent; [done|].
    apply Forall_forall. by intros l [? _]%list_elem_of_filter.
Qed.
End SortFacts.

Section DedupFacts.
Variable Rule_String : Rule -> string.
Variable RecordingRule_Compare : RecordingRule -> RecordingRule -> Z.
Variable Alert_Compare : Alert -> Alert -> Z.

Local Abbreviation step := (dedupRulesStep Rule_String RecordingRule_Compare Alert_Compare).
Local Abbreviation dedupRules' := (dedupRules Rule_String RecordingRule_Compare Alert_Compare).

(** Whatever the map of seen rules holds, an iteration appends its rule. *)
Lemma dedupRulesStep_appends (st : gmap string Rule * list Rule) (r : Rule) :
  (step st r).2 = st.2 ++ [r].
Proof.
  destruct st as [seen unique]. unfold dedupRulesStep.
  destruct (seen !! Rule_String r) as [existing|]; [|done].
  destruct (GetRecording existing), (GetRecording r),
           (GetAlert existing), (GetAlert r); simpl;
    repeat match goal with |- context [negb ?b] => destruct b; simpl end; done.
Qed.

Lemma dedupRules_loop_appends (st : gmap string Rule * list Rule) (rs : list Rule) :
  (foldl step st rs).2 = st.2 ++ rs.
Proof.
  revert st. induction rs as [|r rs IH]; intros st; cbn [foldl].
  - by rewrite app_nil_r.
  - by rewrite IH, dedupRulesStep_appends, <- app_assoc.
Qed.

Lemma dedupRules_keeps_every_rule (rules : list Rule) (L : gset string) :
  dedupRules' rules L = normalizeRule L <$> rules.
Proof.
  unfold dedupRules. case_bool_decide as Hlen.
  - by destruct rules.
  - by rewrite dedupRules_loop_appends.
Qed.

(** C6: deduplicating twice under the same replica labels gives what
    deduplicating once gives. *)
Theorem dedupRules_idempotent (x : list Rule) (L : gset string) :
  dedupRules' (dedupRules' x L) L = dedupRules' x L.
Proof.
  rewrite !dedupRules_keeps_every_rule, <- list_fmap_compose.
  apply list_fmap_ext. intros i r _. apply normalizeRule_idempotent.
Qed.

(** C1, evaluated on the scenario of the specification: two alerting
    rules that differ only in the value of the replica label. Whatever
    the identity string and the comparison answer, both rules are in the
    output, each without its replica label. *)
Theorem dedupRules_keeps_replica_duplicate :
  dedupRules' [upRule "0"; upRule "1"] {[ "replica"%string ]} = [upStripped; upStripped].
Proof. rewrite dedupRules_keeps_every_rule. by vm_compute. Qed.
End DedupFacts.

(** ** The stream sink *)
Section SinkFacts.

(** C2, as stated, fails: a delivered group without any rule is
    accumulated, and the delivery reports no error. *)
Lemma Send_accepts_group_without_rules :
  Group_Rules emptyGroup = [] /\
  Send (newRulesServer {| ctx_done := false |}) (Response_Group (Some emptyGroup)) =
    ({| srv_ctx := {| ctx_done := false |}; srv_warnings := [];
        srv_groups := [emptyGroup] |}, None).
Proof. split; reflexivity. Qed.

Lemma Send_warning (srv : rulesServer) (w : string) :
  w <> EmptyString ->
  Send srv (Response_Warning w) =
    ({| srv_ctx := srv_ctx srv;
        srv_warnings := srv_warnings srv ++ [errors_New w];
        srv_groups := srv_groups srv |}, None).
Proof.
  intros Hw. unfold Send. simpl.
  destruct (String.eqb_spec w EmptyString) as [->|_]; done.
Qed.

(** C2, amended: a delivery is rejected, with the error [no group] and
    the sink left as it was, exactly when the message carries neither a
    non-empty warning nor a group; a delivered group is appended to the
    accumulated groups whatever the number of its rules. *)
Theorem Send_rejects_exactly_missing_group (srv : rulesServer) (res : RulesResponse) :
  ((Send srv res).2 <> None <->
     GetWarning res = EmptyString /\ GetGroup res = None) /\
  ((Send srv res).2 <> None ->
     Send srv res = (srv, Some (errors_New "no group"))) /\
  (forall g,
     Send srv (Response_Group (Some g)) =
       ({| srv_ctx := srv_ctx srv; srv_warnings := srv_warnings srv;
           srv_groups := srv_groups srv ++ [g] |}, None)).
Proof.
  split; [|split].
  - unfold Send. destruct (String.eqb_spec (GetWarning res) EmptyString) as [Hw|Hw]; simpl.
    + destruct (GetGroup res); simpl; split; try done.
      * by intros [_ ?].
    + split; [done|]. by intros [? _].
  - unfold Send. destruct (String.eqb (GetWarning res) EmptyString); simpl; [|done].
    by destruct (GetGroup res).
  - done.
Qed.

(** C4, as stated, fails: with the context done, a warning is still
    accumulated, a group is still accumulated, and a message without
    either is still answered with an error. *)
Lemma Send_after_done_not_ignored :
  ctx_done (rulesServer_Context doneSink) = true /\
  srv_warnings (Send doneSink (Response_Warning "late")).1 = [errors_New "late"] /\
  srv_groups (Send doneSink (Response_Group (Some emptyGroup))).1 = [emptyGroup] /\
  (Send doneSink Response_NoResult).2 = Some (errors_New "no group").
Proof. repeat split; reflexivity. Qed.

(** C4, amended: the sink does not consult the context. A delivery made
    when the context is done accumulates, or is rejected, exactly as the
    same delivery made before. *)
Theorem Send_ignores_context (srv : rulesServer) (res : RulesResponse) (ctx : Context) :
  Send (withContext srv ctx) res =
    (withContext (Send srv res).1 ctx, (Send srv res).2).
Proof.
  unfold Send. destruct (String.eqb (GetWarning res) EmptyString); simpl; [|done].
  by destruct (GetGroup res).
Qed.
End SinkFacts.

(** ** The facade *)
Section RulesFacts.
Variable re_MatchString : string -> string -> bool.
Variable Template : Type.
Variable template_New : Template.
Variable template_Parse : Template -> string -> Template * option (list NodeType).
Variable ParseMetricSelector : string -> list Matcher + error.
Variable Rule_String : Rule -> string.
Variable RecordingRule_Compare : RecordingRule -> RecordingRule -> Z.
Variable Alert_Compare : Alert -> Alert -> Z.

Local Abbreviation Rules' :=
  (Rules re_MatchString template_New template_Parse ParseMetricSelector
         Rule_String RecordingRule_Compare Alert_Compare).
Local Abbreviation compile := (compileSelectors ParseMetricSelector).

(** The selector loop fails iff a selector does not parse, and then with
    the error of the first such selector. *)
Lemma compileSelectors_error (selectors : list string) :
  (exists s, s ∈ selectors /\ exists e, ParseMetricSelector s = inr e) ->
  exists pre s post e,
    selectors = pre ++ s :: post /\
    Forall (fun p => exists ms, ParseMetricSelector p = inl ms) pre /\
    ParseMetricSelector s = inr e /\
    compile selectors = inr e.
Proof.
  induction selectors as [|x rest IH]; intros (s & Hin & e & He).
  - inversion Hin.
  - simpl. destruct (ParseMetricSelector x) as [ms|ex] eqn:Hx.
    + apply elem_of_cons in Hin as [->|Hin]; [congruence|].
      destruct IH as (pre & s' & post & e' & -> & Hpre & Hs' & Hc); [by eauto|].
      exists (x :: pre), s', post, e'. rewrite Hc. repeat split; eauto.
    + exists [], x, rest, ex. repeat split; auto.
Qed.

(** C10: when the collaborator returns an error, the call returns no
    groups, no warnings and that error wrapped; what the sink had
    accumulated is not returned. *)
Theorem Rules_proxy_error_discards_accumulated
    (rr : GRPCClient) (ctx : Context) (req : RulesRequest)
    (resp : rulesServer) (err : error) :
  proxy rr rulesServer rulesServer_stream req (newRulesServer ctx) = (resp, Some err) ->
  Rules' rr ctx req =
    {| res_groups := None; res_warnings := [];
       res_err := Some (errors_Wrap err "proxy Rules") |}.
Proof. intros Hp. unfold Rules. by rewrite Hp. Qed.

(** C3, amended: the collaborator is invoked first. When it returns
    without error and a selector of the request does not parse, the call
    returns no groups, no warnings and the wrapped error of the first
    selector that does not parse. *)
Theorem Rules_invalid_selector_after_proxy
    (rr : GRPCClient) (ctx : Context) (req : RulesRequest) (resp : rulesServer) :
  proxy rr rulesServer rulesServer_stream req (newRulesServer ctx) = (resp, None) ->
  (exists s, s ∈ MatcherString req /\ exists e, ParseMetricSelector s = inr e) ->
  exists pre s post e,
    MatcherString req = pre ++ s :: post /\
    Forall (fun p => exists ms, ParseMetricSelector p = inl ms) pre /\
    ParseMetricSelector s = inr e /\
    Rules' rr ctx req =
      {| res_groups := None; res_warnings := [];
         res_err := Some (errors_Wrap e "parser ParseMetricSelector") |}.
Proof.
  intros Hp Hbad.
  destruct (compileSelectors_error _ Hbad) as (pre & s & post & e & Heq & Hpre & Hs & Hc).
  exists pre, s, post, e. repeat split; try done.
  unfold Rules. by rewrite Hp, Hc.
Qed.
End RulesFacts.

(** ** The theorems at sample inputs *)

(** C3, as stated, fails: the request holds a selector that does not
    parse, yet the collaborator is asked first and it is its error that
    the call returns. *)
Lemma Rules_proxy_error_before_selector_error :
  "{"%string ∈ MatcherString badRequest /\
  table_ParseMetricSelector "{" = inr (errors_New "parse error") /\
  Rules literal_MatchString tt plain_Parse table_ParseMetricSelector
        text_Rule_String deep_RecordingRule_Compare deep_Alert_Compare
        failingClient {| ctx_done := false |} badRequest =
    {| res_groups := None; res_warnings := [];
       res_err := Some (errors_Wrap (errors_New "upstream down") "proxy Rules") |}.
Proof. split; [by left|]. split; reflexivity. Qed.

Lemma retained_iff_all_matchers_witness :
  jobMatcherSets <> [] /\
  jobRule "a" ∈ Group_Rules jobGroup /\
  (retainedRule literal_MatchString tt plain_Parse jobMatcherSets jobGroup (jobRule "a") <->
   allMatchersHold literal_MatchString jobMatcherSets
     (nonTemplatedLabels tt plain_Parse (Rule_GetLabels (jobRule "a")))).
Proof.
  assert (H1 : jobMatcherSets <> []) by discriminate.
  assert (H2 : jobRule "a" ∈ Group_Rules jobGroup) by (simpl; left).
  split; [exact H1|]. split; [exact H2|].
  exact (proj1 (retained_iff_all_matchers_on_literal_labels
                  literal_MatchString unit tt plain_Parse
                  jobMatcherSets jobGroup (jobRule "a") H1 H2)).
Defined.

Lemma filterRules_keeps_order_witness :
  jobMatcherSets <> [] /\
  filterRules literal_MatchString tt plain_Parse [emptyGroup; jobGroup] jobMatcherSets =
    [Group_withRules jobGroup [jobRule "a"]] /\
  ruleCount (filterRules literal_MatchString tt plain_Parse [emptyGroup; jobGroup] jobMatcherSets)
    <= ruleCount [emptyGroup; jobGroup].
Proof.
  assert (H1 : jobMatcherSets <> []) by discriminate.
  pose proof (filterRules_keeps_order_and_shrinks
                literal_MatchString unit tt plain_Parse
                [emptyGroup; jobGroup] jobMatcherSets H1) as (Heq & _ & _ & Hle).
  split; [exact H1|]. split; [|exact Hle].
  rewrite Heq. vm_compute. reflexivity.
Defined.

Lemma Rules_invalid_selector_witness :
  proxy healthyClient rulesServer rulesServer_stream badRequest
        (newRulesServer {| ctx_done := false |})
    = (sampleSink {| ctx_done := false |}, None) /\
  exists pre s post e,
    MatcherString badRequest = pre ++ s :: post /\
    Forall (fun p => exists ms, table_ParseMetricSelector p = inl ms) pre /\
    table_ParseMetricSelector s = inr e /\
    Rules literal_MatchString tt plain_Parse table_ParseMetricSelector
          text_Rule_String deep_RecordingRule_Compare deep_Alert_Compare
          healthyClient {| ctx_done := false |} badRequest =
      {| res_groups := None; res_warnings := [];
         res_err := Some (errors_Wrap e "parser ParseMetricSelector") |}.
Proof.
  assert (H1 : proxy healthyClient rulesServer rulesServer_stream badRequest
                 (newRulesServer {| ctx_done := false |})
               = (sampleSink {| ctx_done := false |}, None)) by reflexivity.
  assert (H2 : exists s, s ∈ MatcherString badRequest /\
                 exists e, table_ParseMetricSelector s = inr e).
  { exists "{"%string. split; [simpl; left | eexists; reflexivity]. }
  split; [exact H1|].
  exact (Rules_invalid_selector_after_proxy
           literal_MatchString unit tt plain_Parse table_ParseMetricSelector
           text_Rule_String deep_RecordingRule_Compare deep_Alert_Compare
           healthyClient {| ctx_done := false |} badRequest _ H1 H2).
Defined.

Lemma Rules_proxy_error_witness :
  proxy failingClient rulesServer rulesServer_stream jobRequest
        (newRulesServer {| ctx_done := false |})
    = (sampleSink {| ctx_done := false |}, Some (errors_New "upstream down")) /\
  Rules literal_MatchString tt plain_Parse table_ParseMetricSelector
        text_Rule_String deep_RecordingRule_Compare deep_Alert_Compare
        failingClient {| ctx_done := false |} jobRequest =
    {| res_groups := None; res_warnings := [];
       res_err := Some (errors_Wrap (errors_New "upstream down") "proxy Rules") |}.
Proof.
  assert (H1 : proxy failingClient rulesServer rulesServer_stream jobRequest
                 (newRulesServer {| ctx_done := false |})
               = (sampleSink {| ctx_done := false |}, Some (errors_New "upstream down")))
    by reflexivity.
  split; [exact H1|].
  exact (Rules_proxy_error_discards_accumulated
           literal_MatchString unit tt plain_Parse table_ParseMetricSelector
           text_Rule_String deep_RecordingRule_Compare deep_Alert_Compare
           failingClient {| ctx_done := false |} jobRequest _ _ H1).
Defined.

(** ** The scenarios of the specification, evaluated *)

(** Group [g1] arrives with two rules from one shard and two from another:
    the merge holds one group [g1] with the four rules. *)
Example dedupGroups_two_shards :
  dedupGroups [jobGroup; emptyGroup; jobGroup] =
    [Group_withRules jobGroup [jobRule "a"; jobRule "b"; jobRule "a"; jobRule "b"]].
Proof. vm_compute. reflexivity. Qed.

(** A templated label value is not a literal label: a matcher on its name
    sees the empty string. *)
Example templated_label_not_matched :
  matches literal_MatchString tt plain_Parse jobMatcherSets
          [ {| Label_Name := "job"; Label_Value := "{{ .Labels.job }}" |} ] = false /\
  matches literal_MatchString tt plain_Parse jobMatcherSets
          [ {| Label_Name := "job"; Label_Value := "a" |} ] = true.
Proof. split; reflexivity. Qed.

(** The whole call on a healthy collaborator: the rule of job [a] is
    kept, the warning is returned. *)
Example Rules_healthy_call :
  Rules literal_MatchString tt plain_Parse table_ParseMetricSelector
        text_Rule_String deep_RecordingRule_Compare deep_Alert_Compare
        healthyClient {| ctx_done := false |} jobRequest =
    {| res_groups := Some [Group_withRules jobGroup [jobRule "a"]];
       res_warnings := [errors_New "replica 1 unreachable"];
       res_err := None |}.
Proof. vm_compute. reflexivity. Qed.

(** * Further properties of the code *)

(** ** Construction of the client and removal of replica labels *)
Section ClientFacts.

Lemma replicaLabels_fold (labels : list string) (acc : gset string) (x : string) :
  x ∈ foldl (fun acc label => {[label]} ∪ acc) acc labels <-> x ∈ acc \/ x ∈ labels.
Proof.
  revert acc. induction labels as [|l labels IH]; intros acc; cbn [foldl].
  - rewrite elem_of_nil. tauto.
  - rewrite IH, elem_of_union, elem_of_singleton, elem_of_cons. tauto.
Qed.

(** X1: the client holds the collaborator it was given, and its replica
    labels are exactly the names of the list, however often a name is
    repeated there. *)
Theorem NewGRPCClientWithDedup_replicaLabels (rs : RulesServer) (labels : list string) :
  proxy (NewGRPCClientWithDedup rs labels) = rs /\
  forall x, x ∈ replicaLabels (NewGRPCClientWithDedup rs labels) <-> x ∈ labels.
Proof.
  split; [done|]. intros x. simpl. rewrite replicaLabels_fold, elem_of_empty. tauto.
Qed.

Lemma SetLabels_GetLabels (r : Rule) : Rule_SetLabels r (Rule_GetLabels r) = r.
Proof. by destruct r as [[]|[]|]. Qed.

(** X2: a client made by [NewGRPCClient] has no replica label, and
    removing its replica labels leaves every rule as it is. *)
Theorem NewGRPCClient_removes_no_label (rs : RulesServer) (r : Rule) :
  replicaLabels (NewGRPCClient rs) = ∅ /\
  removeReplicaLabels r (replicaLabels (NewGRPCClient rs)) = r.
Proof.
  split; [done|]. unfold removeReplicaLabels.
  change (replicaLabels (NewGRPCClient rs)) with (∅ : gset string).
  etrans; [|apply SetLabels_GetLabels]. f_equal.
  apply filter_all. intros l. apply not_elem_of_empty.
Qed.

Lemma GetLabels_removeReplicaLabels (r : Rule) (L : gset string) :
  Rule_GetLabels (removeReplicaLabels r L) =
  filter (fun l => Label_Name l ∉ L) (Rule_GetLabels r).
Proof. by destruct r. Qed.

(** X3: removing the labels of one set and then those of another removes
    the labels of the union; in particular removing twice is removing
    once. *)
Theorem removeReplicaLabels_union (r : Rule) (L1 L2 : gset string) :
  removeReplicaLabels (removeReplicaLabels r L1) L2 = removeReplicaLabels r (L1 ∪ L2).
Proof.
  unfold removeReplicaLabels at 1. rewrite GetLabels_removeReplicaLabels.
  unfold removeReplicaLabels. rewrite SetLabels_SetLabels. f_equal.
  unfold Labels. rewrite list_filter_filter.
  apply list_filter_iff. intros l. rewrite not_elem_of_union. tauto.
Qed.
End ClientFacts.

(** ** More on the replica deduper *)
Section DedupMore.
Variable Rule_String : Rule -> string.
Variable RecordingRule_Compare : RecordingRule -> RecordingRule -> Z.
Variable Alert_Compare : Alert -> Alert -> Z.

Local Abbreviation dedupRules' := (dedupRules Rule_String RecordingRule_Compare Alert_Compare).

Lemma GetLabels_normalizeRule (L : gset string) (r : Rule) :
  Rule_GetLabels (normalizeRule L r) =
  sortByName (filter (fun l => Label_Name l ∉ L) (Rule_GetLabels r)).
Proof. by destruct r. Qed.

Lemma normalizeRule_content (L : gset string) (r : Rule) :
  Rule_SetLabels (normalizeRule L r) (Rule_GetLabels r) = r.
Proof. by destruct r as [[]|[]|]. Qed.

Lemma normalizeRule_normalLabels (L : gset string) (r : Rule) :
  normalLabels L (normalizeRule L r).
Proof.
  unfold normalLabels. rewrite GetLabels_normalizeRule. split.
  - intros l. rewrite sortByName_Permutation. by intros [? _]%list_elem_of_filter.
  - apply sortByName_sorted.
Qed.

Lemma dedupRules_elem (rules : list Rule) (L : gset string) (o : Rule) :
  o ∈ dedupRules' rules L <-> exists i, i ∈ rules /\ o = normalizeRule L i.
Proof.
  rewrite dedupRules_keeps_every_rule, list_elem_of_fmap.
  split; intros (i & H1 & H2); exists i; by split.
Qed.

(** X4: every rule of the output is a rule of the input with nothing but
    its labels changed: the labels are those of the input rule that are
    not replica labels, ordered by name. No rule is made up, and no
    replica label is left. *)
Theorem dedupRules_output_normalised (rules : list Rule) (L : gset string) :
  Forall (fun o =>
            exists i, i ∈ rules /\
              Rule_SetLabels o (Rule_GetLabels i) = i /\
              Rule_GetLabels o ≡ₚ filter (fun l => Label_Name l ∉ L) (Rule_GetLabels i) /\
              normalLabels L o)
         (dedupRules' rules L).
Proof.
  apply Forall_forall. intros o (i & Hi & ->)%dedupRules_elem.
  exists i. split; [done|]. split; [apply normalizeRule_content|].
  split; [|apply normalizeRule_normalLabels].
  rewrite GetLabels_normalizeRule. apply sortByName_Permutation.
Qed.
End DedupMore.

(** ** More on the selector filter *)
Section FilterMore.
Variable re_MatchString : string -> string -> bool.
Variable Template : Type.
Variable template_New : Template.
Variable template_Parse : Template -> string -> Template * option (list NodeType).

Local Abbreviation nonTemplated := (nonTemplatedLabels template_New template_Parse).
Local Abbreviation matches' := (matches re_MatchString template_New template_Parse).
Local Abbreviation filterRules' := (filterRules re_MatchString template_New template_Parse).
Local Abbreviation filterGroup' := (filterGroup re_MatchString template_New template_Parse).
Local Abbreviation retained := (retainedRules re_MatchString template_New template_Parse).

Lemma matcherSetsHold_app (a b : list (list Matcher)) (nt : Labels) :
  matcherSetsHold re_MatchString (a ++ b) nt =
  matcherSetsHold re_MatchString a nt && matcherSetsHold re_MatchString b nt.
Proof.
  induction a as [|ms a IH]; [done|]. simpl.
  by destruct (matchersHold re_MatchString ms nt).
Qed.

Lemma matches_app_eq (ms1 ms2 : list (list Matcher)) (l : Labels) :
  matches' (ms1 ++ ms2) l = matches' ms1 l && matches' ms2 l.
Proof.
  destruct ms1 as [|m1 ms1]; [done|].
  destruct ms2 as [|m2 ms2].
  - by rewrite app_nil_r, andb_true_r.
  - unfold matches. rewrite !bool_decide_eq_false_2 by done.
    apply matcherSetsHold_app.
Qed.

(** X5: matching against two lists of matcher sets put together is
    matching against both: a further selector can only reject more
    label sets. *)
Theorem matches_app (ms1 ms2 : list (list Matcher)) (l : Labels) :
  matches' (ms1 ++ ms2) l = matches' ms1 l && matches' ms2 l /\
  (matches' (ms1 ++ ms2) l = true -> matches' ms1 l = true).
Proof.
  split; [apply matches_app_eq|].
  rewrite matches_app_eq. by intros [? _]%andb_true_iff.
Qed.

Lemma nonTemplated_subset (l : Labels) (label : Label) :
  label ∈ nonTemplated l -> label ∈ l.
Proof.
  intros (pre & post & -> & _)%nonTemplatedFrom_elem.
  apply elem_of_app. right. by left.
Qed.

(** X6: a matcher that does not accept the empty string rejects every
    label set without a label of its name, whatever the other matchers
    are. *)
Theorem matches_rejects_absent_label
    (matcherSets : list (list Matcher)) (matchers : list Matcher) (m : Matcher) (l : Labels) :
  matchers ∈ matcherSets -> m ∈ matchers ->
  Matcher_Name m ∉ Label_Name <$> l ->
  Matcher_Matches re_MatchString m EmptyString = false ->
  matches' matcherSets l = false.
Proof.
  intros Hset Hm Habsent Hempty.
  destruct (matches' matcherSets l) eqn:Hmatch; [|done].
  apply matches_true in Hmatch. specialize (Hmatch matchers m Hset Hm).
  rewrite Labels_Get_absent in Hmatch; [congruence|].
  intros (label & Hname & Hin)%list_elem_of_fmap. apply Habsent.
  apply list_elem_of_fmap. exists label. split; [done|]. by apply nonTemplated_subset.
Qed.
End FilterMore.

Section FilterCompose.
Variable re_MatchString : string -> string -> bool.
Variable Template : Type.
Variable template_New : Template.
Variable template_Parse : Template -> string -> Template * option (list NodeType).

Local Abbreviation matches' := (matches re_MatchString template_New template_Parse).
Local Abbreviation filterRules' := (filterRules re_MatchString template_New template_Parse).
Local Abbreviation filterGroup' := (filterGroup re_MatchString template_New template_Parse).
Local Abbreviation retained := (retainedRules re_MatchString template_New template_Parse).

Lemma omap_omap {A} (f g : A -> option A) (l : list A) :
  omap g (omap f l) = omap (fun x => f x ≫= g) l.
Proof.
  induction l as [|x l IH]; [done|]. simpl omap.
  destruct (f x) as [y|]; simpl; [|exact IH].
  simpl omap. destruct (g y); [f_equal|]; exact IH.
Qed.

Lemma omap_ext_eq {A} (f g : A -> option A) (l : list A) :
  (forall x, f x = g x) -> omap f l = omap g l.
Proof.
  intros Hfg. induction l as [|x l IH]; [done|]. simpl omap.
  rewrite Hfg. destruct (g x); [f_equal|]; exact IH.
Qed.

Lemma omap_fixed {A} (f : A -> option A) (l : list A) :
  (forall x y, f x = Some y -> f y = Some y) -> omap f (omap f l) = omap f l.
Proof.
  intros Hf. induction l as [|x l IH]; [done|]. simpl omap.
  destruct (f x) as [y|] eqn:Hx; [|exact IH].
  simpl omap. rewrite (Hf x y Hx). f_equal. exact IH.
Qed.

Lemma retained_withRules (ms : list (list Matcher)) (g : RuleGroup) (rs : list Rule) :
  retained ms (Group_withRules g rs) =
  filter (fun r => matches' ms (Rule_GetLabels r) = true) rs.
Proof. done. Qed.

Lemma filterGroup_seq (ms1 ms2 : list (list Matcher)) (g : RuleGroup) :
  filterGroup' (ms1 ++ ms2) g = filterGroup' ms1 g ≫= filterGroup' ms2.
Proof.
  rewrite !filterGroup_retained.
  assert (Hr : retained (ms1 ++ ms2) g =
               filter (fun r => matches' ms2 (Rule_GetLabels r) = true) (retained ms1 g)).
  { unfold retainedRules. rewrite list_filter_filter. apply list_filter_iff.
    intros r. rewrite matches_app_eq, andb_true_iff. tauto. }
  destruct (decide (retained ms1 g = [])) as [He|Hne]; simpl.
  - rewrite decide_True; [done|]. by rewrite Hr, He.
  - rewrite filterGroup_retained, retained_withRules, <- Hr.
    by destruct (decide (retained (ms1 ++ ms2) g = [])).
Qed.

Lemma filterGroup_fixed (ms : list (list Matcher)) (g g' : RuleGroup) :
  filterGroup' ms g = Some g' -> filterGroup' ms g' = Some g'.
Proof.
  rewrite filterGroup_retained. case_decide as Hne; [done|]. intros [= <-].
  rewrite filterGroup_retained, retained_withRules.
  assert (Hr : filter (fun r => matches' ms (Rule_GetLabels r) = true) (retained ms g)
               = retained ms g).
  { unfold retainedRules. rewrite list_filter_filter. apply list_filter_iff. tauto. }
  rewrite Hr. by rewrite decide_False.
Qed.

(** X7: filtering what the filter returned, with the same matcher sets,
    changes nothing. *)
Theorem filterRules_idempotent (ruleGroups : list RuleGroup) (matcherSets : list (list Matcher)) :
  filterRules' (filterRules' ruleGroups matcherSets) matcherSets =
  filterRules' ruleGroups matcherSets.
Proof.
  destruct matcherSets as [|m ms]; [done|].
  rewrite !filterRules_omap by done.
  apply omap_fixed. intros g g'. apply filterGroup_fixed.
Qed.

(** X8: the filter treats every group on its own: filtering the groups
    of two deliveries put together gives the two filtered lists put
    together. *)
Theorem filterRules_app (groups1 groups2 : list RuleGroup) (matcherSets : list (list Matcher)) :
  filterRules' (groups1 ++ groups2) matcherSets =
  filterRules' groups1 matcherSets ++ filterRules' groups2 matcherSets.
Proof.
  destruct matcherSets as [|m ms]; [done|].
  rewrite !filterRules_omap by done. apply omap_app.
Qed.

(** X9: filtering with two lists of matcher sets at once is filtering
    with the first and then with the second. *)
Theorem filterRules_matcherSets_app
    (ruleGroups : list RuleGroup) (ms1 ms2 : list (list Matcher)) :
  filterRules' ruleGroups (ms1 ++ ms2) =
  filterRules' (filterRules' ruleGroups ms1) ms2.
Proof.
  destruct ms1 as [|m1 ms1]; [done|].
  destruct ms2 as [|m2 ms2]; [by rewrite app_nil_r|].
  rewrite !filterRules_omap by done. rewrite omap_omap.
  apply omap_ext_eq. intros g. apply filterGroup_seq.
Qed.
End FilterCompose.

(** ** More on the group merger *)
Section MergeMore.

Local Abbreviation names := (fmap (M:=list) Group_Name).

Lemma foldl_mergeInto_distinct (u gs : list RuleGroup) :
  NoDup (names (u ++ gs)) -> foldl mergeInto u gs = u ++ gs.
Proof.
  revert u. induction gs as [|g gs IH]; intros u Hnd; cbn [foldl].
  - by rewrite app_nil_r.
  - assert (Hfresh : Group_Name g ∉ names u).
    { rewrite fmap_app, fmap_cons in Hnd. apply NoDup_app in Hnd as (_ & Hdis & _).
      intros Hin. apply (Hdis _ Hin). by left. }
    rewrite (mergeInto_fresh u g Hfresh), IH, <- app_assoc; [done|].
    by rewrite <- app_assoc.
Qed.

Lemma dedupGroups_names_NoDup (groups : list RuleGroup) : NoDup (names (dedupGroups groups)).
Proof.
  rewrite dedupGroups_mergeInto, names_foldl_mergeInto. simpl.
  apply NoDup_filter, firstSeen_NoDup.
Qed.

(** X10: groups of pairwise distinct names are returned as they are, in
    the order given. *)
Theorem dedupGroups_distinct_names (groups : list RuleGroup) :
  NoDup (names groups) -> dedupGroups groups = groups.
Proof.
  intros Hnd. rewrite dedupGroups_mergeInto. by apply foldl_mergeInto_distinct.
Qed.

(** X11: merging what the merger returned changes nothing. *)
Theorem dedupGroups_idempotent (groups : list RuleGroup) :
  dedupGroups (dedupGroups groups) = dedupGroups groups.
Proof.
  rewrite (dedupGroups_mergeInto (dedupGroups groups)).
  apply foldl_mergeInto_distinct. simpl. apply dedupGroups_names_NoDup.
Qed.

Lemma withRules_own (g : RuleGroup) : g = Group_withRules g (Group_Rules g).
Proof. by destruct g. Qed.

Lemma mergeInto_elem (u : list RuleGroup) (g x : RuleGroup) :
  x ∈ mergeInto u g ->
  (exists y, y ∈ u /\ x = Group_withRules y (Group_Rules x)) \/
  (x = g /\ Group_Name g ∉ names u).
Proof.
  induction u as [|y u IH]; cbn [mergeInto].
  - intros ->%list_elem_of_singleton. right. split; [done|]. apply not_elem_of_nil.
  - case_decide as Heq.
    + intros [->|Hin]%elem_of_cons.
      * left. exists y. split; [by left|done].
      * left. exists x. split; [by right|apply withRules_own].
    + intros [->|Hin]%elem_of_cons.
      * left. exists y. split; [by left|apply withRules_own].
      * destruct (IH Hin) as [(z & Hz & Hx)|[-> Hfresh]].
        -- left. exists z. split; [by right|done].
        -- right. split; [done|]. rewrite fmap_cons, not_elem_of_cons. split; [congruence|done].
Qed.

Lemma names_mergeInto_incl (u : list RuleGroup) (g : RuleGroup) (n : string) :
  n ∈ names (mergeInto u g) <-> n ∈ names u \/ n = Group_Name g.
Proof.
  rewrite names_mergeInto. case_decide as Hin.
  - split; [by left|]. by intros [?| ->].
  - rewrite elem_of_app, list_elem_of_singleton. tauto.
Qed.

(** Every group of the result comes from a group kept so far, or from
    the first input group of its name, whose name is then new. *)
Lemma foldl_mergeInto_origin (u gs : list RuleGroup) (o : RuleGroup) :
  o ∈ foldl mergeInto u gs ->
  (exists x, x ∈ u /\ o = Group_withRules x (Group_Rules o)) \/
  ((Group_Name o ∉ names u) /\ firstOfName gs o).
Proof.
  revert u. induction gs as [|g gs IH]; intros u; cbn [foldl].
  - intros Ho. left. exists o. split; [done|apply withRules_own].
  - intros Ho. destruct (IH _ Ho) as [(x & Hx & Hox)|[Hfresh (pre & g' & post & -> & Hpre & Hn & Hg')]].
    + destruct (mergeInto_elem u g x Hx) as [(y & Hy & Hxy)|[-> Hfresh]].
      * left. exists y. split; [done|]. rewrite Hox, Hxy. done.
      * right. assert (Hname : Group_Name o = Group_Name g) by by rewrite Hox.
        split; [by rewrite Hname|].
        exists [], g, gs. split; [done|]. split; [apply not_elem_of_nil|]. by split.
    + rewrite names_mergeInto_incl in Hfresh.
      right. split; [tauto|].
      exists (g :: pre), g', post. split; [done|]. split; [|by split].
      rewrite fmap_cons, not_elem_of_cons. split; [|done].
      intros Heq. apply Hfresh. by right.
Qed.

(** X12: every group of the result has all its fields but the rules from
    the first input group of its name; later groups of the name give
    their rules only. *)
Theorem dedupGroups_fields_of_first (groups : list RuleGroup) :
  Forall (firstOfName groups) (dedupGroups groups).
Proof.
  apply Forall_forall. intros o. rewrite dedupGroups_mergeInto.
  intros [(x & Hx & _)|[_ Hfirst]]%foldl_mergeInto_origin; [inversion Hx|done].
Qed.
End MergeMore.

(** ** More on the stream sink *)
Section SinkMore.

Lemma Send_sink (srv : rulesServer) (m : RulesResponse) :
  (Send srv m).1 =
  {| srv_ctx := srv_ctx srv;
     srv_warnings := srv_warnings srv ++ acceptedWarnings [m];
     srv_groups := srv_groups srv ++ acceptedGroups [m] |}.
Proof.
  unfold Send, acceptedWarnings, acceptedGroups. simpl.
  destruct (String.eqb (GetWarning m) EmptyString); simpl; [|by rewrite app_nil_r].
  destruct (GetGroup m); simpl; rewrite ?app_nil_r; [done|by destruct srv].
Qed.

Lemma acceptedWarnings_cons (m : RulesResponse) (msgs : list RulesResponse) :
  acceptedWarnings (m :: msgs) = acceptedWarnings [m] ++ acceptedWarnings msgs.
Proof. unfold acceptedWarnings. by rewrite <- omap_app. Qed.

Lemma acceptedGroups_cons (m : RulesResponse) (msgs : list RulesResponse) :
  acceptedGroups (m :: msgs) = acceptedGroups [m] ++ acceptedGroups msgs.
Proof. unfold acceptedGroups. by rewrite <- omap_app. Qed.

(** X18: after any sequence of deliveries the sink holds, behind what it
    held before, the non-empty warnings of the sequence in the order of
    delivery and the groups of the messages without warning in the order
    of delivery; rejected messages leave no trace, and the context stays
    the one the sink was made with. *)
Theorem sendAll_accumulates_in_order (srv : rulesServer) (msgs : list RulesResponse) :
  sendAll srv msgs =
  {| srv_ctx := srv_ctx srv;
     srv_warnings := srv_warnings srv ++ acceptedWarnings msgs;
     srv_groups := srv_groups srv ++ acceptedGroups msgs |}.
Proof.
  revert srv. induction msgs as [|m msgs IH]; intros srv.
  - unfold sendAll, acceptedWarnings, acceptedGroups. cbn [foldl omap list_omap].
    rewrite !app_nil_r. by destruct srv.
  - unfold sendAll. cbn [foldl]. fold (sendAll (Send srv m).1 msgs).
    rewrite IH, Send_sink. cbn [srv_ctx srv_warnings srv_groups].
    by rewrite (acceptedWarnings_cons m msgs), (acceptedGroups_cons m msgs), !app_assoc.
Qed.
End SinkMore.

(** ** More on the facade *)
Section RulesMore.
Variable re_MatchString : string -> string -> bool.
Variable Template : Type.
Variable template_New : Template.
Variable template_Parse : Template -> string -> Template * option (list NodeType).
Variable ParseMetricSelector : string -> list Matcher + error.
Variable Rule_String : Rule -> string.
Variable RecordingRule_Compare : RecordingRule -> RecordingRule -> Z.
Variable Alert_Compare : Alert -> Alert -> Z.

Local Abbreviation Rules' :=
  (Rules re_MatchString template_New template_Parse ParseMetricSelector
         Rule_String RecordingRule_Compare Alert_Compare).
Local Abbreviation compile := (compileSelectors ParseMetricSelector).
Local Abbreviation matches' := (matches re_MatchString template_New template_Parse).
Local Abbreviation filterRules' := (filterRules re_MatchString template_New template_Parse).
Local Abbreviation dedupRules' := (dedupRules Rule_String RecordingRule_Compare Alert_Compare).
Local Abbreviation run rr ctx req :=
  (proxy rr rulesServer rulesServer_stream req (newRulesServer ctx)).

Lemma compileSelectors_inl (selectors : list string) (sets : list (list Matcher)) :
  compile selectors = inl sets <->
  Forall2 (fun s ms => ParseMetricSelector s = inl ms) selectors sets.
Proof.
  revert sets. induction selectors as [|s rest IH]; intros sets; simpl.
  - split; [intros [= <-]; constructor | by inversion 1].
  - destruct (ParseMetricSelector s) as [ms|e] eqn:Hs.
    + destruct (compile rest) as [sets'|e'] eqn:Hrest.
      * split.
        -- intros [= <-]. constructor; [done|]. by apply IH.
        -- inversion 1 as [|? ms' ? sets'' Hms Htail]; subst.
           apply IH in Htail. congruence.
      * split; [done|]. inversion 1 as [|? ms' ? sets'' Hms Htail]; subst.
        apply IH in Htail. congruence.
    + split; [done|]. inversion 1; congruence.
Qed.

(** X13: the selector loop succeeds exactly when every selector parses,
    and then it answers one matcher set per selector, the set at each
    position being the parse of the selector at that position. *)
Theorem compileSelectors_succeeds_iff (selectors : list string) (sets : list (list Matcher)) :
  (compile selectors = inl sets <->
     Forall2 (fun s ms => ParseMetricSelector s = inl ms) selectors sets) /\
  (compile selectors = inl sets -> length sets = length selectors).
Proof.
  split; [apply compileSelectors_inl|].
  intros H%compileSelectors_inl. symmetry. by eapply Forall2_length.
Qed.

(** What the call returns when the collaborator ends well and the
    selectors parse. *)
Lemma Rules_success (rr : GRPCClient) (ctx : Context) (req : RulesRequest)
    (resp : rulesServer) (sets : list (list Matcher)) :
  run rr ctx req = (resp, None) ->
  compile (MatcherString req) = inl sets ->
  Rules' rr ctx req =
    {| res_groups :=
         Some ((fun g => Group_withRules g (dedupRules' (Group_Rules g) (replicaLabels rr)))
                 <$> dedupGroups (filterRules' (srv_groups resp) sets));
       res_warnings := srv_warnings resp;
       res_err := None |}.
Proof. intros Hp Hc. unfold Rules. by rewrite Hp, Hc. Qed.

(** X14: the call returns either groups or an error, never both and
    never neither; with an error it returns no warning. *)
Theorem Rules_groups_xor_error (rr : GRPCClient) (ctx : Context) (req : RulesRequest) :
  (res_groups (Rules' rr ctx req) = None <-> res_err (Rules' rr ctx req) <> None) /\
  (res_err (Rules' rr ctx req) <> None -> res_warnings (Rules' rr ctx req) = []).
Proof.
  unfold Rules. destruct (run rr ctx req) as [resp [e|]]; simpl.
  - split; [split|]; done.
  - destruct (compile (MatcherString req)); simpl; split; try split; done.
Qed.

(** X15: the call succeeds exactly when the collaborator returns no error
    and every selector of the request parses; it then returns the
    warnings the sink accumulated, all of them and in their order,
    whatever the selectors filter out. *)
Theorem Rules_succeeds_iff (rr : GRPCClient) (ctx : Context) (req : RulesRequest) :
  (res_err (Rules' rr ctx req) = None <->
     (run rr ctx req).2 = None /\
     Forall (fun s => exists ms, ParseMetricSelector s = inl ms) (MatcherString req)) /\
  (res_err (Rules' rr ctx req) = None ->
     res_warnings (Rules' rr ctx req) = srv_warnings (run rr ctx req).1).
Proof.
  assert (Hparse : forall l,
            (exists sets, compile l = inl sets) <->
            Forall (fun s => exists ms, ParseMetricSelector s = inl ms) l).
  { induction l as [|s l IH]; simpl.
    - split; [constructor | by eexists].
    - rewrite Forall_cons, <- IH. destruct (ParseMetricSelector s) as [ms|e].
      + destruct (compile l) as [sets|e'].
        * split; [intros _; split; by eexists | by eexists].
        * split; [by intros [? ?] | by intros [_ [? ?]]].
      + split; [by intros [? ?] | by intros [[? ?] _]]. }
  unfold Rules. destruct (run rr ctx req) as [resp [e|]]; simpl.
  - split; [split; [done | by intros [? _]] | done].
  - rewrite <- Hparse. destruct (compile (MatcherString req)) as [sets|e]; simpl.
    + split; [|done]. split; [intros _; split; [done | by eexists] | done].
    + split; [|done]. split; [done | by intros [_ [? ?]]].
Qed.
End RulesMore.

(** ** The rules a successful call returns *)
Section PipelineFacts.
Variable re_MatchString : string -> string -> bool.
Variable Template : Type.
Variable template_New : Template.
Variable template_Parse : Template -> string -> Template * option (list NodeType).
Variable ParseMetricSelector : string -> list Matcher + error.
Variable Rule_String : Rule -> string.
Variable RecordingRule_Compare : RecordingRule -> RecordingRule -> Z.
Variable Alert_Compare : Alert -> Alert -> Z.

Local Abbreviation Rules' :=
  (Rules re_MatchString template_New template_Parse ParseMetricSelector
         Rule_String RecordingRule_Compare Alert_Compare).
Local Abbreviation compile := (compileSelectors ParseMetricSelector).
Local Abbreviation matches' := (matches re_MatchString template_New template_Parse).
Local Abbreviation filterRules' := (filterRules re_MatchString template_New template_Parse).
Local Abbreviation retained := (retainedRules re_MatchString template_New template_Parse).
Local Abbreviation dedupRules' := (dedupRules Rule_String RecordingRule_Compare Alert_Compare).
Local Abbreviation dedupIn L :=
  (fun g => Group_withRules g (dedupRules' (Group_Rules g) L)).
Local Abbreviation run rr ctx req :=
  (proxy rr rulesServer rulesServer_stream req (newRulesServer ctx)).
Local Abbreviation names := (fmap (M:=list) Group_Name).

Lemma rulesNamed_elem (n : string) (gs : list RuleGroup) (r : Rule) :
  r ∈ rulesNamed n gs <-> holdsRule gs n r.
Proof.
  unfold holdsRule. induction gs as [|g gs IH].
  - split; [intros H; inversion H | intros (g & H & _); inversion H].
  - rewrite rulesNamed_cons, elem_of_app, IH. split.
    + intros [Hr|(g' & Hg' & Hn & Hr)].
      * case_decide as Hn; [|inversion Hr]. exists g. split; [by left|done].
      * exists g'. split; [by right|done].
    + intros (g' & [->|Hg']%elem_of_cons & Hn & Hr).
      * left. by rewrite decide_True.
      * right. by exists g'.
Qed.

Lemma dedupGroups_rulesNamed (n : string) (gs : list RuleGroup) :
  rulesNamed n (dedupGroups gs) = rulesNamed n gs.
Proof.
  rewrite dedupGroups_mergeInto, rulesNamed_foldl_mergeInto; [done|constructor].
Qed.

Lemma dedupGroups_holdsRule (gs : list RuleGroup) (n : string) (r : Rule) :
  holdsRule (dedupGroups gs) n r <-> holdsRule gs n r.
Proof. by rewrite <- !rulesNamed_elem, dedupGroups_rulesNamed. Qed.

Lemma dedupGroups_names_incl (gs : list RuleGroup) (n : string) :
  n ∈ names (dedupGroups gs) <-> n ∈ names gs.
Proof.
  rewrite dedupGroups_mergeInto, names_foldl_mergeInto. simpl.
  rewrite list_elem_of_filter, firstSeen_elem. split; [by intros [_ ?]|].
  intros H. split; [apply not_elem_of_nil|done].
Qed.

Lemma filterRules_holdsRule (gs : list RuleGroup) (ms : list (list Matcher))
    (n : string) (r : Rule) :
  holdsRule (filterRules' gs ms) n r <->
  holdsRule gs n r /\ matches' ms (Rule_GetLabels r) = true.
Proof.
  destruct ms as [|m ms]; [by split; [|intros [? _]]|].
  rewrite filterRules_retained by done. unfold holdsRule. split.
  - intros (g' & (g & -> & [Hne Hg]%list_elem_of_filter)%list_elem_of_fmap & Hn & Hr).
    simpl in Hn, Hr. apply retainedRules_elem in Hr as [Hr Hm].
    split; [by exists g|done].
  - intros [(g & Hg & Hn & Hr) Hm].
    assert (Hret : r ∈ retained (m :: ms) g) by by apply retainedRules_elem.
    exists (Group_withRules g (retained (m :: ms) g)). split; [|done].
    apply list_elem_of_fmap. exists g. split; [done|].
    apply list_elem_of_filter. split; [|done]. intros He. rewrite He in Hret. inversion Hret.
Qed.

Lemma dedupIn_holdsRule (gs : list RuleGroup) (L : gset string) (n : string) (r : Rule) :
  holdsRule (dedupIn L <$> gs) n r <->
  exists r0, holdsRule gs n r0 /\ r = normalizeRule L r0.
Proof.
  unfold holdsRule. split.
  - intros (g' & (g & -> & Hg)%list_elem_of_fmap & Hn & Hr). simpl in Hn, Hr.
    apply dedupRules_elem in Hr as (r0 & Hr0 & ->). exists r0. split; [by exists g|done].
  - intros (r0 & (g & Hg & Hn & Hr0) & ->). exists (dedupIn L g). split.
    + apply list_elem_of_fmap. by exists g.
    + split; [done|]. simpl. apply dedupRules_elem. by exists r0.
Qed.

Lemma filterRules_names (gs : list RuleGroup) (ms : list (list Matcher)) (n : string) :
  n ∈ names (filterRules' gs ms) -> n ∈ names gs.
Proof.
  destruct ms as [|m ms]; [done|].
  rewrite filterRules_retained, <- list_fmap_compose by done.
  intros (g & -> & [_ Hg]%list_elem_of_filter)%list_elem_of_fmap.
  by apply (list_elem_of_fmap_2 Group_Name) in Hg.
Qed.

Lemma filterRules_nonempty (gs : list RuleGroup) (ms : list (list Matcher)) (g : RuleGroup) :
  ms <> [] -> g ∈ filterRules' gs ms -> Group_Rules g <> [].
Proof.
  intros Hne. rewrite filterRules_retained by done.
  by intros (g0 & -> & [? _]%list_elem_of_filter)%list_elem_of_fmap.
Qed.

Lemma dedupGroups_nonempty (gs : list RuleGroup) (g : RuleGroup) :
  Forall (fun x => Group_Rules x <> []) gs ->
  g ∈ dedupGroups gs -> Group_Rules g <> [].
Proof.
  intros Hall Hg.
  assert (Hn : Group_Name g ∈ names gs).
  { apply (proj1 (dedupGroups_names_incl _ _)). by apply list_elem_of_fmap_2. }
  apply list_elem_of_fmap in Hn as (x & Hx & Hin).
  rewrite Forall_forall in Hall. specialize (Hall x Hin).
  destruct (Group_Rules x) as [|r rs] eqn:Hrs; [done|].
  assert (Hr : holdsRule (dedupGroups gs) (Group_Name g) r).
  { apply dedupGroups_holdsRule. exists x. split; [done|]. split; [done|].
    rewrite Hrs. by left. }
  rewrite <- rulesNamed_elem, (rulesNamed_own _ g (dedupGroups_names_NoDup gs) Hg) in Hr.
  intros He. rewrite He in Hr. inversion Hr.
Qed.

(** X16: the groups of a successful call have pairwise distinct names,
    each the name of a delivered group. *)
Theorem Rules_group_names_distinct (rr : GRPCClient) (ctx : Context) (req : RulesRequest)
    (resp : rulesServer) (sets : list (list Matcher)) :
  run rr ctx req = (resp, None) ->
  compile (MatcherString req) = inl sets ->
  exists groups,
    res_groups (Rules' rr ctx req) = Some groups /\
    NoDup (names groups) /\
    forall n, n ∈ names groups -> n ∈ names (srv_groups resp).
Proof.
  intros Hp Hc.
  pose proof (Rules_success re_MatchString Template template_New template_Parse
                ParseMetricSelector Rule_String RecordingRule_Compare Alert_Compare
                rr ctx req resp sets Hp Hc) as HR.
  eexists. split; [by rewrite HR|].
  rewrite <- list_fmap_compose.
  change (Group_Name ∘ dedupIn (replicaLabels rr)) with Group_Name.
  split; [apply dedupGroups_names_NoDup|].
  intros n Hn. apply (proj1 (dedupGroups_names_incl _ _)) in Hn.
  by eapply filterRules_names.
Qed.

(** X17: a successful call returns, under a group name, exactly the
    rules delivered under that name whose labels satisfy the matcher sets
    of the request, each with its replica labels removed and its labels
    ordered by name. *)
Theorem Rules_returns_matching_rules (rr : GRPCClient) (ctx : Context) (req : RulesRequest)
    (resp : rulesServer) (sets : list (list Matcher)) :
  run rr ctx req = (resp, None) ->
  compile (MatcherString req) = inl sets ->
  exists groups,
    res_groups (Rules' rr ctx req) = Some groups /\
    forall n r,
      holdsRule groups n r <->
      exists r0,
        holdsRule (srv_groups resp) n r0 /\
        matches' sets (Rule_GetLabels r0) = true /\
        r = normalizeRule (replicaLabels rr) r0.
Proof.
  intros Hp Hc.
  pose proof (Rules_success re_MatchString Template template_New template_Parse
                ParseMetricSelector Rule_String RecordingRule_Compare Alert_Compare
                rr ctx req resp sets Hp Hc) as HR.
  eexists. split; [by rewrite HR|].
  intros n r. rewrite dedupIn_holdsRule. split.
  - intros (r0 & Hh & ->).
    apply (proj1 (dedupGroups_holdsRule _ _ _)) in Hh.
    apply (proj1 (filterRules_holdsRule _ _ _ _)) in Hh as [Hh Hm]. by exists r0.
  - intros (r0 & Hh & Hm & ->). exists r0. split; [|done].
    apply dedupGroups_holdsRule, filterRules_holdsRule. by split.
Qed.

(** X19: when the request has a selector, a successful call returns no
    group without rules. *)
Theorem Rules_no_empty_group (rr : GRPCClient) (ctx : Context) (req : RulesRequest)
    (resp : rulesServer) (sets : list (list Matcher)) :
  run rr ctx req = (resp, None) ->
  compile (MatcherString req) = inl sets ->
  MatcherString req <> [] ->
  exists groups,
    res_groups (Rules' rr ctx req) = Some groups /\
    Forall (fun g => Group_Rules g <> []) groups.
Proof.
  intros Hp Hc Hsel.
  pose proof (Rules_success re_MatchString Template template_New template_Parse
                ParseMetricSelector Rule_String RecordingRule_Compare Alert_Compare
                rr ctx req resp sets Hp Hc) as HR.
  eexists. split; [by rewrite HR|].
  assert (Hsets : sets <> []).
  { apply compileSelectors_inl, Forall2_length in Hc.
    destruct sets; [|done]. by destruct (MatcherString req). }
  apply Forall_fmap, Forall_forall. intros g Hg. simpl.
  rewrite dedupRules_keeps_every_rule.
  assert (Hne : Group_Rules g <> []).
  { eapply dedupGroups_nonempty; [|exact Hg].
    apply Forall_forall. intros x. by apply filterRules_nonempty. }
  by destruct (Group_Rules g).
Qed.
End PipelineFacts.

(** ** The further properties at sample inputs *)

Lemma matches_rejects_absent_label_witness :
  [jobMatcher] ∈ jobMatcherSets /\
  jobMatcher ∈ [jobMatcher] /\
  (Matcher_Name jobMatcher ∉ Label_Name <$> envLabels) /\
  Matcher_Matches literal_MatchString jobMatcher EmptyString = false /\
  matches literal_MatchString tt plain_Parse jobMatcherSets envLabels = false.
Proof.
  assert (H1 : [jobMatcher] ∈ jobMatcherSets) by (simpl; left).
  assert (H2 : jobMatcher ∈ [jobMatcher]) by left.
  assert (H3 : Matcher_Name jobMatcher ∉ Label_Name <$> envLabels).
  { simpl. rewrite list_elem_of_singleton. discriminate. }
  assert (H4 : Matcher_Matches literal_MatchString jobMatcher EmptyString = false)
    by reflexivity.
  split; [exact H1|]. split; [exact H2|]. split; [exact H3|]. split; [exact H4|].
  exact (matches_rejects_absent_label literal_MatchString unit tt plain_Parse
           jobMatcherSets [jobMatcher] jobMatcher envLabels H1 H2 H3 H4).
Defined.

Lemma dedupGroups_distinct_names_witness :
  NoDup (Group_Name <$> [jobGroup; otherGroup]) /\
  dedupGroups [jobGroup; otherGroup] = [jobGroup; otherGroup].
Proof.
  assert (H1 : NoDup (Group_Name <$> [jobGroup; otherGroup])).
  { simpl. repeat constructor.
    - rewrite list_elem_of_singleton. discriminate.
    - apply not_elem_of_nil. }
  split; [exact H1|]. exact (dedupGroups_distinct_names [jobGroup; otherGroup] H1).
Defined.

Lemma Rules_group_names_distinct_witness :
  proxy healthyClient rulesServer rulesServer_stream jobRequest
        (newRulesServer {| ctx_done := false |})
    = (sampleSink {| ctx_done := false |}, None) /\
  compileSelectors table_ParseMetricSelector (MatcherString jobRequest) = inl jobMatcherSets /\
  exists groups,
    res_groups (Rules literal_MatchString tt plain_Parse table_ParseMetricSelector
                      text_Rule_String deep_RecordingRule_Compare deep_Alert_Compare
                      healthyClient {| ctx_done := false |} jobRequest) = Some groups /\
    NoDup (Group_Name <$> groups) /\
    forall n, n ∈ Group_Name <$> groups ->
              n ∈ Group_Name <$> srv_groups (sampleSink {| ctx_done := false |}).
Proof.
  assert (H1 : proxy healthyClient rulesServer rulesServer_stream jobRequest
                 (newRulesServer {| ctx_done := false |})
               = (sampleSink {| ctx_done := false |}, None)) by reflexivity.
  assert (H2 : compileSelectors table_ParseMetricSelector (MatcherString jobRequest)
               = inl jobMatcherSets) by reflexivity.
  split; [exact H1|]. split; [exact H2|].
  exact (Rules_group_names_distinct literal_MatchString unit tt plain_Parse
           table_ParseMetricSelector text_Rule_String deep_RecordingRule_Compare
           deep_Alert_Compare healthyClient {| ctx_done := false |} jobRequest _ _ H1 H2).
Defined.

Lemma Rules_returns_matching_rules_witness :
  proxy healthyClient rulesServer rulesServer_stream jobRequest
        (newRulesServer {| ctx_done := false |})
    = (sampleSink {| ctx_done := false |}, None) /\
  compileSelectors table_ParseMetricSelector (MatcherString jobRequest) = inl jobMatcherSets /\
  exists groups,
    res_groups (Rules literal_MatchString tt plain_Parse table_ParseMetricSelector
                      text_Rule_String deep_RecordingRule_Compare deep_Alert_Compare
                      healthyClient {| ctx_done := false |} jobRequest) = Some groups /\
    forall n r,
      holdsRule groups n r <->
      exists r0,
        holdsRule (srv_groups (sampleSink {| ctx_done := false |})) n r0 /\
        matches literal_MatchString tt plain_Parse jobMatcherSets (Rule_GetLabels r0) = true /\
        r = normalizeRule (replicaLabels healthyClient) r0.
Proof.
  assert (H1 : proxy healthyClient rulesServer rulesServer_stream jobRequest
                 (newRulesServer {| ctx_done := false |})
               = (sampleSink {| ctx_done := false |}, None)) by reflexivity.
  assert (H2 : compileSelectors table_ParseMetricSelector (MatcherString jobRequest)
               = inl jobMatcherSets) by reflexivity.
  split; [exact H1|]. split; [exact H2|].
  exact (Rules_returns_matching_rules literal_MatchString unit tt plain_Parse
           table_ParseMetricSelector text_Rule_String deep_RecordingRule_Compare
           deep_Alert_Compare healthyClient {| ctx_done := false |} jobRequest _ _ H1 H2).
Defined.

Lemma Rules_no_empty_group_witness :
  proxy healthyClient rulesServer rulesServer_stream jobRequest
        (newRulesServer {| ctx_done := false |})
    = (sampleSink {| ctx_done := false |}, None) /\
  compileSelectors table_ParseMetricSelector (MatcherString jobRequest) = inl jobMatcherSets /\
  MatcherString jobRequest <> [] /\
  exists groups,
    res_groups (Rules literal_MatchString tt plain_Parse table_ParseMetricSelector
                      text_Rule_String deep_RecordingRule_Compare deep_Alert_Compare
                      healthyClient {| ctx_done := false |} jobRequest) = Some groups /\
    Forall (fun g => Group_Rules g <> []) groups.
Proof.
  assert (H1 : proxy healthyClient rulesServer rulesServer_stream jobRequest
                 (newRulesServer {| ctx_done := false |})
               = (sampleSink {| ctx_done := false |}, None)) by reflexivity.
  assert (H2 : compileSelectors table_ParseMetricSelector (MatcherString jobRequest)
               = inl jobMatcherSets) by reflexivity.
  assert (H3 : MatcherString jobRequest <> []) by discriminate.
  split; [exact H1|]. split; [exact H2|]. split; [exact H3|].
  exact (Rules_no_empty_group literal_MatchString unit tt plain_Parse
           table_ParseMetricSelector text_Rule_String deep_RecordingRule_Compare
           deep_Alert_Compare healthyClient {| ctx_done := false |} jobRequest _ _ H1 H2 H3).
Defined.

(** ** The one template of [matches] and blank label values *)
Section TemplateFacts.
Variable re_MatchString : string -> string -> bool.

Local Abbreviation goMatches := (matches re_MatchString None redefining_Parse).
Local Abbreviation goMatchesLiteral := (matchesLiteral re_MatchString None redefining_Parse).

(** A text that is not blank is parsed the same way whatever body the
    template has. *)
Lemma redefining_Parse_not_blank (t : option (list NodeType)) (text : string) :
  isBlank text = false ->
  singleTextNode (redefining_Parse t text).2 =
  singleTextNode (redefining_Parse None text).2.
Proof.
  intros Hb. unfold redefining_Parse.
  destruct (plain_Parse tt text).2 as [tree|]; [|done].
  destruct t as [old|]; [|done]. by rewrite Hb.
Qed.

Lemma literalLabels_cons (label : Label) (l : Labels) :
  literalLabels None redefining_Parse (label :: l) =
  if decide (literalValue None redefining_Parse label = true)
  then label :: literalLabels None redefining_Parse l
  else literalLabels None redefining_Parse l.
Proof. done. Qed.

Lemma nonTemplatedFrom_not_blank (t : option (list NodeType)) (l : Labels) :
  Forall (fun label => isBlank (Label_Value label) = false) l ->
  nonTemplatedFrom redefining_Parse t l = literalLabels None redefining_Parse l.
Proof.
  intros Hl. revert t. induction Hl as [|label l Hb Hl IH]; intros t; [done|].
  cbn [nonTemplatedFrom]. rewrite literalLabels_cons.
  pose proof (redefining_Parse_not_blank t (Label_Value label) Hb) as Heq.
  unfold literalValue, parsesAsSingleText.
  destruct (redefining_Parse t (Label_Value label)) as [t' parsed]. simpl in Heq.
  rewrite <- Heq. destruct (singleTextNode parsed).
  - rewrite decide_True by done. by rewrite IH.
  - rewrite decide_False by done. by apply IH.
Qed.

(** On labels without blank value the code does what its comment says:
    [matches] is [matchesLiteral]. *)
Lemma matches_literal_without_blank (matcherSets : list (list Matcher)) (l : Labels) :
  Forall (fun label => isBlank (Label_Value label) = false) l ->
  goMatches matcherSets l = goMatchesLiteral matcherSets l.
Proof.
  intros Hl. unfold matches, matchesLiteral, nonTemplatedLabels.
  by rewrite nonTemplatedFrom_not_blank.
Qed.
End TemplateFacts.

(** C5, evaluated on a rule with the templated label [a] followed by the
    label [b] whose value is one space, and the matcher [b] equal to one
    space. On its own the value of [b] parses into a single text node,
    so [b] is literal and the matcher holds on it: the rule is to be
    retained. The code parses it with the template that holds the body
    of [a], which a blank text does not replace; it takes [b] for
    templated, matches against the empty string and drops the rule.
    With the two labels in the other order the rule is retained. *)
Theorem matches_blank_value_after_template :
  literalValue None redefining_Parse blankLabel = true /\
  matchesLiteral literal_MatchString None redefining_Parse blankMatcherSets
                 [templatedLabel; blankLabel] = true /\
  matches literal_MatchString None redefining_Parse blankMatcherSets
          [templatedLabel; blankLabel] = false /\
  matches literal_MatchString None redefining_Parse blankMatcherSets
          [blankLabel; templatedLabel] = true /\
  filterRules literal_MatchString None redefining_Parse [blankGroup] blankMatcherSets = [].
Proof. repeat split; vm_compute; reflexivity. Qed.

Lemma matches_literal_without_blank_witness :
  Forall (fun label => isBlank (Label_Value label) = false)
         [templatedLabel; {| Label_Name := "job"; Label_Value := "a" |}] /\
  matches literal_MatchString None redefining_Parse jobMatcherSets
          [templatedLabel; {| Label_Name := "job"; Label_Value := "a" |}] =
  matchesLiteral literal_MatchString None redefining_Parse jobMatcherSets
          [templatedLabel; {| Label_Name := "job"; Label_Value := "a" |}].
Proof.
  assert (H : Forall (fun label => isBlank (Label_Value label) = false)
                [templatedLabel; {| Label_Name := "job"; Label_Value := "a" |}])
    by (repeat constructor).
  split; [exact H|].
  exact (matches_literal_without_blank literal_MatchString jobMatcherSets _ H).
Defined.
